(** * PyTMM: the transfer-matrix kernel of [transferMatrix.py]

    A shallow embedding of the module in exact arithmetic.  NumPy's
    floating-point scalars are idealised as real and complex numbers
    ([R] and pairs of [R]); every array keeps the [dtype] tag NumPy
    would give it, so that the precision the code asks for stays
    visible.  [numpy.linalg] is modelled by what it computes in exact
    arithmetic: the inverse or the solution when the determinant is not
    zero, [LinAlgError] when it is.  Rounding is not modelled: the
    storage of an entry in single precision and the pivots LAPACK
    computes in floating point are outside this development.
    [TransferMatrix] instances live in an
    object store, since the class has in-place mutators and the solver
    functions share default instances between calls. *)

From Stdlib Require Import Reals Lra Field List.
From stdpp Require Import gmap.
Import ListNotations.

Local Open Scope R_scope.

(** ** Complex scalars *)

Module Cplx.

Definition C : Type := (R * R)%type.

Definition Re (z : C) : R := fst z.
Definition Im (z : C) : R := snd z.

Definition RtoC (x : R) : C := (x, 0).
Definition C0 : C := RtoC 0.
Definition C1 : C := RtoC 1.
(** Python's [1j]. *)
Definition Ci : C := (0, 1).

Definition Cadd (z w : C) : C := (Re z + Re w, Im z + Im w).
Definition Copp (z : C) : C := (- Re z, - Im z).
Definition Csub (z w : C) : C := Cadd z (Copp w).
Definition Cmul (z w : C) : C :=
  (Re z * Re w - Im z * Im w, Re z * Im w + Im z * Re w).
Definition Cnorm2 (z : C) : R := Re z * Re z + Im z * Im z.
Definition Cinv (z : C) : C := (Re z / Cnorm2 z, - Im z / Cnorm2 z).
Definition Cdiv (z w : C) : C := Cmul z (Cinv w).
(** [numpy.conj] *)
Definition Cconj (z : C) : C := (Re z, - Im z).
(** [numpy.exp] on a complex argument. *)
Definition Cexp (z : C) : C := (exp (Re z) * cos (Im z), exp (Re z) * sin (Im z)).

Definition Ceq_dec (z w : C) : {z = w} + {z <> w}.
Proof.
  destruct z as [a b], w as [c d].
  destruct (Req_dec_T a c) as [-> | Hac].
  - destruct (Req_dec_T b d) as [-> | Hbd].
    + left; reflexivity.
    + right; intros H; apply Hbd; congruence.
  - right; intros H; apply Hac; congruence.
Defined.

End Cplx.
Export Cplx.

Declare Scope C_scope.
Delimit Scope C_scope with C.
Bind Scope C_scope with C.
Notation "z + w" := (Cadd z w) : C_scope.
Notation "- z" := (Copp z) : C_scope.
Notation "z - w" := (Csub z w) : C_scope.
Notation "z * w" := (Cmul z w) : C_scope.
Notation "/ z" := (Cinv z) : C_scope.
Notation "z / w" := (Cdiv z w) : C_scope.
Notation "0" := C0 : C_scope.
Notation "1" := C1 : C_scope.
Notation "2" := (RtoC 2) : C_scope.

(** ** Two-by-two matrices *)

Record mat2 : Type := Mat2 { m00 : C; m01 : C; m10 : C; m11 : C }.

Definition vec2 : Type := (C * C)%type.

Definition mat2_id : mat2 := Mat2 1 0 0 1.

Definition mat2_mul (a b : mat2) : mat2 :=
  Mat2 (m00 a * m00 b + m01 a * m10 b) (m00 a * m01 b + m01 a * m11 b)
       (m10 a * m00 b + m11 a * m10 b) (m10 a * m01 b + m11 a * m11 b).

Definition mat2_vec (a : mat2) (v : vec2) : vec2 :=
  (m00 a * fst v + m01 a * snd v, m10 a * fst v + m11 a * snd v)%C.

Definition mat2_det (a : mat2) : C := (m00 a * m11 a - m01 a * m10 a)%C.

Definition mat2_adj (a : mat2) : mat2 :=
  Mat2 (m11 a) (- m01 a) (- m10 a) (m00 a).

Definition mat2_scale (k : C) (a : mat2) : mat2 :=
  Mat2 (k * m00 a) (k * m01 a) (k * m10 a) (k * m11 a).

Definition mat2_transpose (a : mat2) : mat2 :=
  Mat2 (m00 a) (m10 a) (m01 a) (m11 a).

(** The inverse of a matrix whose determinant is not zero. *)
Definition mat2_inv (a : mat2) : mat2 := mat2_scale (/ mat2_det a) (mat2_adj a).

Infix "×" := mat2_mul (at level 40, left associativity).

(** ** Exceptions *)

Inductive exn : Type :=
| AssertionError      (* a failed [assert] *)
| LinAlgError         (* numpy.linalg: singular matrix *)
| ZeroDivisionError   (* division of Python scalars by zero *)
| AttributeError.     (* a reference that holds no [matrix] *)

Inductive result (A : Type) : Type :=
| Ok (a : A)
| Raise (e : exn).
Arguments Ok {A} a.
Arguments Raise {A} e.

Definition result_bind {A B} (r : result A) (k : A -> result B) : result B :=
  match r with Ok a => k a | Raise e => Raise e end.

(** ** The part of NumPy the module uses *)

Module numpy.

(** Element types.  [complex64] is a pair of 32-bit floats (single
    precision), [complex128] a pair of 64-bit floats (double precision). *)
Inductive dtype : Type := int64 | float32 | float64 | complex64 | complex128.

(** [numpy.promote_types] on these five types. *)
Definition promote_types (a b : dtype) : dtype :=
  match a, b with
  | complex128, _ | _, complex128 => complex128
  | complex64, (int64 | float64) | (int64 | float64), complex64 => complex128
  | complex64, _ | _, complex64 => complex64
  | float64, _ | _, float64 => float64
  | float32, int64 | int64, float32 => float64
  | float32, float32 => float32
  | int64, int64 => int64
  end.

Definition double_precision_complex (t : dtype) : Prop := t = complex128.
Definition single_precision_complex (t : dtype) : Prop := t = complex64.

(** A 2x2 array: its element type and its entries, idealised as exact
    complex numbers whatever the element type is. *)
Record ndarray : Type := NdArray { dtype_of : dtype; entries : mat2 }.

(** [numpy.array([[a, b], [c, d]], dtype=t)] *)
Definition array (t : dtype) (a b c d : C) : ndarray := NdArray t (Mat2 a b c d).

(** [numpy.identity(2, dtype=t)]; the default [dtype] is [float64]. *)
Definition identity (t : dtype) : ndarray := NdArray t mat2_id.

(** [numpy.dot] of two 2x2 arrays. *)
Definition dot (a b : ndarray) : ndarray :=
  NdArray (promote_types (dtype_of a) (dtype_of b)) (entries a × entries b).

(** [numpy.dot] of a 2x2 array and a column [[x], [y]]. *)
Definition dot_col (a : ndarray) (v : vec2) : vec2 := mat2_vec (entries a) v.

(** The element type [numpy.linalg] computes in: integers are promoted
    to [float64], the other types are kept. *)
Definition linalg_type (t : dtype) : dtype :=
  match t with int64 => float64 | _ => t end.

(** [numpy.linalg.inv]: raises [LinAlgError] on a singular matrix. *)
Definition linalg_inv (a : ndarray) : result ndarray :=
  if Ceq_dec (mat2_det (entries a)) 0 then Raise LinAlgError
  else Ok (NdArray (linalg_type (dtype_of a)) (mat2_inv (entries a))).

(** *** Systems of any size: arrays as lists of rows *)

Definition vector : Type := list C.
Definition matrix : Type := list vector.

Definition rows (a : mat2) : matrix := [[m00 a; m01 a]; [m10 a; m11 a]].

(** [numpy.zeros((r, c))] *)
Definition zeros (r c : nat) : matrix := repeat (repeat C0 c) r.

(** [numpy.hstack((a, b))] and [numpy.vstack((a, b))] *)
Definition hstack (a b : matrix) : matrix := zip_with (@app C) a b.
Definition vstack (a b : matrix) : matrix := a ++ b.

(** [numpy.multiply(v, k)] for a scalar [k] *)
Definition multiply (v : vector) (k : C) : vector := map (fun x => x * k)%C v.

(** [v[i]] *)
Definition item (v : vector) (i : nat) : C := nth i v C0.

(** Product of a matrix and a vector. *)
Definition mat_vec (a : matrix) (x : vector) : vector :=
  map (fun row => fold_right Cadd C0 (zip_with Cmul row x)) a.

Definition drop_nth {A} (j : nat) (l : list A) : list A := firstn j l ++ skipn (S j) l.

Definition sign (j : nat) : C := if Nat.even j then C1 else (- C1)%C.

(** Determinant by expansion along the first row; [n] is the size. *)
Fixpoint det_n (n : nat) (a : matrix) : C :=
  match n, a with
  | O, _ => C1
  | S k, [] => C0
  | S k, row :: rest =>
      fold_right Cadd C0
        (map (fun j => sign j * nth j row C0 * det_n k (map (drop_nth j) rest))%C
             (seq 0 (S k)))
  end.

Definition det (a : matrix) : C := det_n (length a) a.

(** The matrix [a] with column [j] replaced by [b]. *)
Definition replace_col (j : nat) (b : vector) (a : matrix) : matrix :=
  zip_with (fun row bi => firstn j row ++ bi :: skipn (S j) row) a b.

(** [numpy.linalg.solve(a, b)]: the solution of [a x = b], by Cramer's
    rule; raises [LinAlgError] on a singular matrix. *)
Definition linalg_solve (a : matrix) (b : vector) : result vector :=
  if Ceq_dec (det a) 0 then Raise LinAlgError
  else Ok (map (fun j => det (replace_col j b a) / det a)%C (seq 0 (length a))).

End numpy.

(** ** The object store *)

(** A reference to a [TransferMatrix] instance. *)
Definition loc : Type := positive.

(** The state of an instance is its [matrix] attribute.  The module
    never writes into an array, it only rebinds the attribute to a new
    array, so the store maps an instance directly to the array value. *)
Abbreviation heap := (gmap loc numpy.ndarray).

(** Computations that read and write the store and may raise.  An
    exception leaves the store as it was when it was raised. *)
Definition Py (A : Type) : Type := heap -> result A * heap.

Definition ret {A} (a : A) : Py A := fun h => (Ok a, h).
Definition raise {A} (e : exn) : Py A := fun h => (Raise e, h).
Definition bind {A B} (c : Py A) (k : A -> Py B) : Py B :=
  fun h => match c h with
           | (Ok a, h') => k a h'
           | (Raise e, h') => (Raise e, h')
           end.
Definition lift {A} (r : result A) : Py A := fun h => (r, h).

Notation "'let!' x ':=' c 'in' k" := (bind c (fun x => k))
  (at level 10, x name, c at level 100, k at level 200, only parsing).

(** Outcome and final store of a computation. *)
Definition outcome {A} (c : Py A) (h : heap) : result A := fst (c h).
Definition final {A} (c : Py A) (h : heap) : heap := snd (c h).

(** ** class TransferMatrix *)

Module TransferMatrix.
Import numpy.

(** [TransferMatrix(matrix)]: a new instance. *)
Definition init (matrix : ndarray) : Py loc :=
  fun h => let self := fresh (dom h) in (Ok self, <[self := matrix]> h).

(** [self.matrix] *)
Definition matrix (self : loc) : Py ndarray :=
  fun h => match h !! self with
           | Some m => (Ok m, h)
           | None => (Raise AttributeError, h)
           end.

(** [self.matrix = m] *)
Definition set_matrix (self : loc) (m : ndarray) : Py unit :=
  fun h => (Ok tt, <[self := m]> h).

(** The loop of [structure]: [for m in args: mat = numpy.dot(m.matrix, mat)]. *)
Fixpoint structure_loop (args : list loc) (mat : ndarray) : Py ndarray :=
  match args with
  | [] => ret mat
  | m :: args' =>
      let! mm := matrix m in
      structure_loop args' (dot mm mat)
  end.

Definition structure (args : list loc) : Py loc :=
  let! mat := structure_loop args (identity complex64) in
  init mat.

(** The three arrays [layer] builds.  The divisions are divisions of
    Python scalars: they raise [ZeroDivisionError] when the divisor is
    zero, which [layer] checks below before the arrays are used. *)
Definition bottomBoundary (n : C) : ndarray :=
  array complex64 ((1 + n) / (2 * n)) ((n - 1) / (2 * n))
                  ((n - 1) / (2 * n)) ((1 + n) / (2 * n)).

Definition topBoundary (n : C) : ndarray :=
  array complex64 ((1 + n) / 2) (- (n - 1) / 2)
                  (- (n - 1) / 2) ((1 + n) / 2).

Definition propagation (n : C) (d wavelength : R) : ndarray :=
  array complex64
    (Cexp (- Ci * n * RtoC d * 2 * RtoC PI / RtoC wavelength)) 0
    0 (Cexp (Ci * n * RtoC d * 2 * RtoC PI / RtoC wavelength)).

Definition layer (n : C) (d wavelength : R) : Py loc :=
  if Ceq_dec (2 * n) 0 then raise ZeroDivisionError else
  if Req_dec_T wavelength 0 then raise ZeroDivisionError else
  let! b := init (bottomBoundary n) in
  let! p := init (propagation n d wavelength) in
  let! t := init (topBoundary n) in
  structure [b; p; t].

Definition leftBoundary (n1 n2 : C) : ndarray :=
  array complex64 ((n1 + n2) / (2 * n2)) ((n2 - n1) / (2 * n2))
                  ((n2 - n1) / (2 * n2)) ((n1 + n2) / (2 * n2)).

Definition boundingLayer (n1 n2 : C) : Py loc :=
  if Ceq_dec (2 * n2) 0 then raise ZeroDivisionError else
  init (leftBoundary n1 n2).

Definition propagationLayer (n : C) (d wavelength : R) : Py loc :=
  if Req_dec_T wavelength 0 then raise ZeroDivisionError else
  init (propagation n d wavelength).

Definition invert (self : loc) : Py unit :=
  let! m := matrix self in
  let! mi := lift (linalg_inv m) in
  set_matrix self mi.

Definition appendLeft (self other : loc) : Py unit :=
  let! mo := matrix other in
  let! ms := matrix self in
  set_matrix self (dot mo ms).

Definition appendRight (self other : loc) : Py unit :=
  let! ms := matrix self in
  let! mo := matrix other in
  set_matrix self (dot ms mo).

End TransferMatrix.

(** ** The module's functions *)

Import numpy.

(** The default arguments [TransferMatrix(numpy.identity(2))] are
    evaluated once, when the [def] statements run: eight instances that
    every later call without explicit bounding matrices shares. *)
Record defaults : Type := Defaults {
  reciprocal_bottomMat : loc;  reciprocal_topMat : loc;
  legacy_bottomMat : loc;      legacy_topMat : loc;
  generalized_bottomMat1 : loc; generalized_topMat1 : loc;
  generalized_bottomMat2 : loc; generalized_topMat2 : loc }.

Definition default_locs (D : defaults) : list loc :=
  [reciprocal_bottomMat D; reciprocal_topMat D; legacy_bottomMat D; legacy_topMat D;
   generalized_bottomMat1 D; generalized_topMat1 D;
   generalized_bottomMat2 D; generalized_topMat2 D].

(** Running the three [def] statements that have default arguments. *)
Definition import_module : Py defaults :=
  let! rb := TransferMatrix.init (identity float64) in
  let! rt := TransferMatrix.init (identity float64) in
  let! lb := TransferMatrix.init (identity float64) in
  let! lt := TransferMatrix.init (identity float64) in
  let! gb1 := TransferMatrix.init (identity float64) in
  let! gt1 := TransferMatrix.init (identity float64) in
  let! gb2 := TransferMatrix.init (identity float64) in
  let! gt2 := TransferMatrix.init (identity float64) in
  ret (Defaults rb rt lb lt gb1 gt1 gb2 gt2).

(** An argument that may be left out. *)
Definition arg_or (dflt : loc) (arg : option loc) : loc := default dflt arg.

Definition solvePropagation (transferMatrix : loc) (incidentField : C)
  : Py (C * C) :=
  let! T := TransferMatrix.matrix transferMatrix in
  let T := entries T in
  let lhs := [[m01 T; (- C1)%C]; [m11 T; C0]] in
  let rhs := [(- m00 T)%C; (- m10 T)%C] in
  let rhs := multiply rhs incidentField in
  let! res := lift (linalg_solve lhs rhs) in
  let reflectance := item res 0 in
  let transmittance := item res 1 in
  ret (reflectance, transmittance).

(** Arrays built from the scalar arguments get the element type of
    Python's complex numbers, [complex128]. *)
Definition findReciprocalTransferMatrix (D : defaults)
    (transmittance reflectance : C) (bottomMat topMat : option loc) : Py loc :=
  let bottomMat := arg_or (reciprocal_bottomMat D) bottomMat in
  let topMat := arg_or (reciprocal_topMat D) topMat in
  if Ceq_dec transmittance 0 then raise AssertionError else
  let matrix :=
    array complex128
      (1 / Cconj transmittance) (reflectance / transmittance)
      (Cconj (reflectance / transmittance)) (1 / transmittance) in
  let! bm := TransferMatrix.matrix bottomMat in
  let! bi := lift (linalg_inv bm) in
  let matrix := dot bi matrix in
  let! tm := TransferMatrix.matrix topMat in
  let! ti := lift (linalg_inv tm) in
  let matrix := dot matrix ti in
  TransferMatrix.init matrix.

Definition findReciprocalTransferMatrixLegacy (D : defaults)
    (transmittance reflectance : C) (bottomMat topMat : option loc) : Py loc :=
  let bottomMat := arg_or (legacy_bottomMat D) bottomMat in
  let topMat := arg_or (legacy_topMat D) topMat in
  let a := rows (entries (identity float64)) in
  let b := [[RtoC (Re reflectance); RtoC (Im reflectance)];
            [RtoC (Im reflectance); (- RtoC (Re reflectance))%C]] in
  let lhs := vstack (hstack a b) (hstack b a) in
  let rhs := [RtoC (Re transmittance); RtoC (Im transmittance); C0; C0] in
  let! res := lift (linalg_solve lhs rhs) in
  let matrix :=
    array complex128
      (item res 0 + Ci * item res 1) (item res 2 - Ci * item res 3)
      (item res 2 + Ci * item res 3) (item res 0 - Ci * item res 1) in
  let! bm := TransferMatrix.matrix bottomMat in
  let! bi := lift (linalg_inv bm) in
  let matrix := dot bi matrix in
  let! tm := TransferMatrix.matrix topMat in
  let! ti := lift (linalg_inv tm) in
  let matrix := dot matrix ti in
  TransferMatrix.init matrix.

Definition findGeneralizedTransferMatrix (D : defaults)
    (transmitance1 reflectance1 transmitance2 reflectance2 : C)
    (bottomMat1 topMat1 bottomMat2 topMat2 : option loc) : Py loc :=
  let bottomMat1 := arg_or (generalized_bottomMat1 D) bottomMat1 in
  let topMat1 := arg_or (generalized_topMat1 D) topMat1 in
  let bottomMat2 := arg_or (generalized_bottomMat2 D) bottomMat2 in
  let topMat2 := arg_or (generalized_topMat2 D) topMat2 in
  let! bm1 := TransferMatrix.matrix bottomMat1 in
  let! bi1 := lift (linalg_inv bm1) in
  let a12 := dot_col bi1 (transmitance1, C0) in
  let! bm2 := TransferMatrix.matrix bottomMat2 in
  let! bi2 := lift (linalg_inv bm2) in
  let a34 := dot_col bi2 (transmitance2, C0) in
  let! tm1 := TransferMatrix.matrix topMat1 in
  let b12 := dot_col tm1 (C1, reflectance1) in
  let! tm2 := TransferMatrix.matrix topMat2 in
  let b34 := dot_col tm2 (C1, reflectance2) in
  let rhs := [fst a12; fst a34; snd a12; snd a34] in
  let bmat := [[fst b12; snd b12]; [fst b34; snd b34]] in
  let lhs := vstack (hstack bmat (zeros 2 2)) (hstack (zeros 2 2) bmat) in
  let! res := lift (linalg_solve lhs rhs) in
  let mat := array complex128 (item res 0) (item res 2) (item res 1) (item res 3) in
  TransferMatrix.init mat.

(** * Vocabulary of the specification *)

(** A computation that only allocates: every instance of the initial
    store is still there, with the same matrix, in the final store. *)
Definition allocates_only {A} (c : Py A) : Prop := forall h, h ⊆ snd (c h).

Definition invertible (a : mat2) : Prop :=
  exists b, a × b = mat2_id /\ b × a = mat2_id.

Definition singular (a : mat2) : Prop := ~ invertible a.

(** The system of section 4.2: [lhs = [[T01, -1], [T11, 0]]] and
    [rhs = incidentField * [-T00, -T10]]. *)
Definition propagation_lhs (T : mat2) : mat2 := Mat2 (m01 T) (- C1) (m11 T) C0.
Definition propagation_rhs (T : mat2) (f : C) : vec2 :=
  (f * - m00 T, f * - m10 T)%C.

(** The solution of that system in closed form: (reflectance,
    transmittance). *)
Definition propagation_solution (T : mat2) (f : C) : C * C :=
  ((- (m10 T * f) / m11 T)%C, (m00 T * f - m01 T * (m10 T * f) / m11 T)%C).

(** The matrix of section 4.3:
    [M = [[1/conj(t), r/t], [conj(r/t), 1/t]]]. *)
Definition reciprocal_matrix (t r : C) : mat2 :=
  Mat2 (1 / Cconj t) (r / t) (Cconj (r / t)) (1 / t).

(** The result of [numpy.linalg.inv] on an invertible array. *)
Definition inv_array (a : ndarray) : ndarray :=
  NdArray (linalg_type (dtype_of a)) (mat2_inv (entries a)).

(** The 4x4 real system of the legacy solver, for a reflectance
    [rho + i sigma] and a transmittance [c + i d]. *)
Definition legacy_lhs (rho sigma : C) : matrix :=
  [[C1; C0; rho; sigma]; [C0; C1; sigma; (- rho)%C];
   [rho; sigma; C1; C0]; [sigma; (- rho)%C; C0; C1]].

(** The matrix the legacy solver builds from the solution of its system
    (before the boundary correction). *)
Definition legacy_matrix (t r : C) : mat2 :=
  let N := RtoC (1 - Cnorm2 r) in
  Mat2 (t / N) (- (Cconj r * t) / N) (- (r * Cconj t) / N) (Cconj t / N).

(** A store with one identity instance, used as both bounding matrices. *)
Definition unit_heap : heap := {[ 1%positive := identity float64 ]}.
Definition unit_defaults : defaults :=
  Defaults 1%positive 1%positive 1%positive 1%positive
           1%positive 1%positive 1%positive 1%positive.

(** The Hermitian-symmetry ansatz of a reciprocal transfer matrix:
    [M11 = conj(M00)] and [M10 = conj(M01)]. *)
Definition reciprocal (E : mat2) : Prop :=
  m11 E = Cconj (m00 E) /\ m10 E = Cconj (m01 E).

(** A reciprocal matrix of determinant 1 whose off-diagonal entries are
    real: [[5/3, 4/3], [4/3, 5/3]]. *)
Definition lossless_asymmetric_sample : ndarray :=
  array complex128 (RtoC (5 / 3)) (RtoC (4 / 3)) (RtoC (4 / 3)) (RtoC (5 / 3)).

(** The block-diagonal system of the generalized solver, for the two
    columns [b12 = topMat1 * (1, r1)] and [b34 = topMat2 * (1, r2)]. *)
Definition generalized_lhs (b12 b34 : vec2) : matrix :=
  [[fst b12; snd b12; C0; C0]; [fst b34; snd b34; C0; C0];
   [C0; C0; fst b12; snd b12]; [C0; C0; fst b34; snd b34]].

(** The matrices of the failing input: [M = [[1, 1], [0, 1]]], measured
    once between identity bounding matrices and once between the bounding
    matrices [J = [[0, 1], [1, 0]]], where the whole stack is
    [J * M * J = [[1, 0], [1, 1]]]. *)
Definition shear : mat2 := Mat2 C1 C1 C0 C1.
Definition swap : mat2 := Mat2 C0 C1 C1 C0.
Definition swapped_shear : mat2 := Mat2 C1 C0 C1 C1.
Definition measurement_heap : heap :=
  <[ 4%positive := NdArray complex128 swapped_shear ]>
  (<[ 3%positive := NdArray complex128 swap ]>
   (<[ 2%positive := NdArray complex128 shear ]> unit_heap)).

(** The product [m_k * ... * m_1] of a sequence [m_1, ..., m_k]. *)
Definition chain (ms : list mat2) : mat2 :=
  fold_right (fun m acc => acc × m) mat2_id ms.

(** The left fold of the spec: the accumulator starts as the identity
    and becomes [m * accumulator] for each [m] in order. *)
Definition left_fold (ms : list mat2) : mat2 :=
  fold_left (fun acc m => m × acc) ms mat2_id.

(** The element type of the result of [structure]. *)
Definition chain_dtype (ts : list dtype) : dtype :=
  fold_left (fun acc t => promote_types t acc) ts complex64.

(** The instances [args] hold the arrays [ms]. *)
Definition hold (h : heap) (args : list loc) (ms : list ndarray) : Prop :=
  Forall2 (fun l m => h !! l = Some m) args ms.

(** The store after three allocations, and the three new references. *)
Definition alloc3 (h : heap) (m1 m2 m3 : ndarray) : heap * (loc * loc * loc) :=
  let l1 := fresh (dom h) in
  let h1 := <[l1 := m1]> h in
  let l2 := fresh (dom h1) in
  let h2 := <[l2 := m2]> h1 in
  let l3 := fresh (dom h2) in
  (<[l3 := m3]> h2, (l1, l2, l3)).

(** The matrix of [layer(n, d, wavelength)]. *)
Definition layer_array (n : C) (d wavelength : R) : ndarray :=
  dot (TransferMatrix.topBoundary n)
      (dot (TransferMatrix.propagation n d wavelength)
           (dot (TransferMatrix.bottomBoundary n) (identity complex64))).

(** A constructor either raises or returns a new instance; [made c h m]
    says that [c] returned an instance that holds the array [m]. *)
Definition made (c : Py loc) (h : heap) (m : ndarray) : Prop :=
  exists (l : loc) (h' : heap), c h = (Ok l, h') /\ h' !! l = Some m.

(** The phase factor [exp(-i * 2 pi d / wavelength)]. *)
Definition phase (d wavelength : R) : C :=
  Cexp (- Ci * RtoC (2 * PI * d / wavelength)).

(** [z] is within [eps] of [w]. *)
Definition close (eps : R) (z w : C) : Prop := Cnorm2 (z - w) <= eps * eps.

(** Every default instance holds [numpy.identity(2)]. *)
Definition defaults_identity (D : defaults) (h : heap) : Prop :=
  Forall (fun l => h !! l = Some (identity float64)) (default_locs D).

(** A call of one of the three solvers that have default bounding
    matrices, with its arguments. *)
Inductive call : Type :=
| CallReciprocal (t r : C) (bottomMat topMat : option loc)
| CallLegacy (t r : C) (bottomMat topMat : option loc)
| CallGeneralized (t1 r1 t2 r2 : C) (bottomMat1 topMat1 bottomMat2 topMat2 : option loc).

Definition run_call (D : defaults) (c : call) : Py loc :=
  match c with
  | CallReciprocal t r b p => findReciprocalTransferMatrix D t r b p
  | CallLegacy t r b p => findReciprocalTransferMatrixLegacy D t r b p
  | CallGeneralized t1 r1 t2 r2 b1 p1 b2 p2 =>
      findGeneralizedTransferMatrix D t1 r1 t2 r2 b1 p1 b2 p2
  end.

(** The store after a sequence of calls; a call that raises is skipped
    over, as in a caller that catches the exception. *)
Definition run_calls (D : defaults) (cs : list call) (h : heap) : heap :=
  fold_left (fun h c => final (run_call D c) h) cs h.

(** ** Programs over the class, used to state how its operations compose *)

(** The sandwich of [layer], built from the sibling constructors:
    [structure(boundingLayer(1, n), propagationLayer(n, d, w),
    boundingLayer(n, 1))]. *)
Definition layer_from_parts (n : C) (d wavelength : R) : Py loc :=
  let! b := TransferMatrix.boundingLayer 1 n in
  let! p := TransferMatrix.propagationLayer n d wavelength in
  let! t := TransferMatrix.boundingLayer n 1 in
  TransferMatrix.structure [b; p; t].

(** [for m in args: acc.appendLeft(m)] *)
Fixpoint appendLeft_all (acc : loc) (args : list loc) : Py unit :=
  match args with
  | [] => ret tt
  | m :: args' =>
      let! _ := TransferMatrix.appendLeft acc m in
      appendLeft_all acc args'
  end.

(** [acc = TransferMatrix(numpy.identity(2, dtype=numpy.complex64))],
    then the loop above, then [acc.matrix]. *)
Definition compose_by_appendLeft (args : list loc) : Py ndarray :=
  let! acc := TransferMatrix.init (identity complex64) in
  let! _ := appendLeft_all acc args in
  TransferMatrix.matrix acc.

(** [s.matrix] for the result [s] of [structure] on [args]. *)
Definition structure_matrix (args : list loc) : Py ndarray :=
  let! s := TransferMatrix.structure args in
  TransferMatrix.matrix s.

(** The matrix of [structure] on the two results of [structure] on [xs]
    and on [ys]. *)
Definition structure_nested (xs ys : list loc) : Py ndarray :=
  let! a := TransferMatrix.structure xs in
  let! b := TransferMatrix.structure ys in
  structure_matrix [a; b].

(** [solvePropagation(tm)], then one of the reciprocal solvers on the
    pair it returns, then the matrix of the result. *)
Definition round_trip (legacy : bool) (D : defaults) (tm : loc)
    (bottomMat topMat : option loc) : Py ndarray :=
  let! rt := solvePropagation tm C1 in
  let! l := (if legacy
             then findReciprocalTransferMatrixLegacy D (snd rt) (fst rt) bottomMat topMat
             else findReciprocalTransferMatrix D (snd rt) (fst rt) bottomMat topMat) in
  TransferMatrix.matrix l.

(** [solvePropagation(layer(n, d, w))] *)
Definition layer_response (n : C) (d wavelength : R) : Py (C * C) :=
  let! l := TransferMatrix.layer n d wavelength in
  solvePropagation l C1.

(** [m = layer(n, d, w)], then the round trip above on [m] with default
    bounding matrices, returning both matrices. *)
Definition layer_round_trip (legacy : bool) (D : defaults) (n : C) (d wavelength : R)
  : Py (ndarray * ndarray) :=
  let! l := TransferMatrix.layer n d wavelength in
  let! m := TransferMatrix.matrix l in
  let! m' := round_trip legacy D l None None in
  ret (m, m').

(** * Properties *)

(** ** The complex numbers form a field *)

Section ComplexField.

Lemma Cnorm2_pos (z : C) : z <> C0 -> Cnorm2 z <> 0.
Proof.
  destruct z as [a b]; unfold Cnorm2, C0, RtoC; simpl; intros Hz Hn.
  apply Hz. assert (a = 0) by nra. assert (b = 0) by nra. congruence.
Qed.

Lemma C1_neq_C0 : C1 <> C0.
Proof. unfold C1, C0, RtoC; intros H; injection H; lra. Qed.

Lemma Cinv_l (z : C) : z <> C0 -> (/ z * z)%C = C1.
Proof.
  intros Hz; pose proof (Cnorm2_pos z Hz) as Hn; destruct z as [a b].
  unfold Cmul, Cinv, C1, RtoC, Cnorm2 in *; simpl in *.
  f_equal; field; exact Hn.
Qed.

Lemma C_field_theory :
  field_theory C0 C1 Cadd Cmul Csub Copp Cdiv Cinv (@eq C).
Proof.
  constructor.
  - constructor; intros;
      repeat match goal with z : C |- _ => destruct z end;
      unfold Cadd, Cmul, Csub, Copp, C0, C1, RtoC; simpl; f_equal; ring.
  - exact C1_neq_C0.
  - reflexivity.
  - exact Cinv_l.
Qed.

End ComplexField.

Add Field C_field : C_field_theory.

Ltac C_components :=
  repeat match goal with z : C |- _ => destruct z end;
  cbv [Cdiv Cinv Csub Cmul Cadd Copp Cconj Cnorm2 C0 C1 Ci RtoC Re Im fst snd] in *.

Lemma Cconj_mul (z w : C) : Cconj (z * w) = (Cconj z * Cconj w)%C.
Proof. C_components. f_equal; ring. Qed.

Lemma Cconj_invol (z : C) : Cconj (Cconj z) = z.
Proof. C_components. f_equal; ring. Qed.

Lemma Cconj_eq_0 (z : C) : Cconj z = C0 -> z = C0.
Proof. C_components. intros H; injection H as -> Hb. f_equal; lra. Qed.

Lemma Cconj_neq_0 (z : C) : z <> C0 -> Cconj z <> C0.
Proof. intros Hz H; apply Hz, Cconj_eq_0, H. Qed.

Lemma Cconj_inv (z : C) : z <> C0 -> Cconj (/ z) = (/ Cconj z)%C.
Proof.
  intros Hz; pose proof (Cnorm2_pos z Hz) as Hn.
  C_components. f_equal; field; lra.
Qed.

Lemma Cconj_div (z w : C) : w <> C0 -> Cconj (z / w) = (Cconj z / Cconj w)%C.
Proof. intros Hw. unfold Cdiv. rewrite Cconj_mul, Cconj_inv; auto. Qed.

Lemma Cmul_conj (z : C) : (z * Cconj z)%C = RtoC (Cnorm2 z).
Proof. C_components. f_equal; ring. Qed.

Lemma RtoC_inj (x y : R) : RtoC x = RtoC y -> x = y.
Proof. unfold RtoC; congruence. Qed.

Lemma Cmul_eq_0 (z w : C) : (z * w)%C = C0 -> z = C0 \/ w = C0.
Proof.
  intros H. destruct (Ceq_dec z C0) as [Hz | Hz]; [now left | right].
  replace w with (/ z * (z * w))%C by (field; exact Hz).
  rewrite H. ring.
Qed.

Lemma Cmul_neq_0 (z w : C) : z <> C0 -> w <> C0 -> (z * w)%C <> C0.
Proof. intros Hz Hw H. destruct (Cmul_eq_0 _ _ H); auto. Qed.

Lemma C2_neq_0 : RtoC 2 <> C0.
Proof. intros H; apply RtoC_inj in H; lra. Qed.

(** ** Algebra of 2x2 matrices *)

Section Mat2Algebra.

Implicit Types a b c : mat2.

Lemma mat2_mul_assoc a b c : a × (b × c) = a × b × c.
Proof. destruct a, b, c; unfold mat2_mul; simpl; f_equal; ring. Qed.

Lemma mat2_mul_id_l a : mat2_id × a = a.
Proof. destruct a; unfold mat2_mul, mat2_id; simpl; f_equal; ring. Qed.

Lemma mat2_mul_id_r a : a × mat2_id = a.
Proof. destruct a; unfold mat2_mul, mat2_id; simpl; f_equal; ring. Qed.

Lemma mat2_inv_l a : mat2_det a <> C0 -> mat2_inv a × a = mat2_id.
Proof.
  destruct a; unfold mat2_inv, mat2_mul, mat2_scale, mat2_adj, mat2_det, mat2_id;
    simpl; intros Hd; f_equal; field; exact Hd.
Qed.

Lemma mat2_inv_r a : mat2_det a <> C0 -> a × mat2_inv a = mat2_id.
Proof.
  destruct a; unfold mat2_inv, mat2_mul, mat2_scale, mat2_adj, mat2_det, mat2_id;
    simpl; intros Hd; f_equal; field; exact Hd.
Qed.

Lemma mat2_det_mul a b : mat2_det (a × b) = (mat2_det a * mat2_det b)%C.
Proof. destruct a, b; unfold mat2_det, mat2_mul; simpl; ring. Qed.

Lemma mat2_det_id : mat2_det mat2_id = C1.
Proof. unfold mat2_det, mat2_id; simpl; ring. Qed.

(** A matrix has at most one inverse, and only when its determinant is
    not zero. *)
Lemma mat2_inverse_unique a b : a × b = mat2_id -> mat2_det a <> C0 /\ b = mat2_inv a.
Proof.
  intros Hab.
  assert (Hd : mat2_det a <> C0).
  { intros H0. pose proof (mat2_det_mul a b) as Hm.
    rewrite Hab, mat2_det_id, H0 in Hm.
    apply C1_neq_C0. rewrite Hm. ring. }
  split; [exact Hd |].
  rewrite <- (mat2_mul_id_l b), <- (mat2_inv_l a Hd), <- mat2_mul_assoc, Hab.
  apply mat2_mul_id_r.
Qed.

Lemma mat2_inv_id : mat2_inv mat2_id = mat2_id.
Proof.
  unfold mat2_inv, mat2_scale, mat2_adj, mat2_det, mat2_id; simpl.
  f_equal; field; exact C1_neq_C0.
Qed.

Lemma mat2_vec_mul a b v : mat2_vec (a × b) v = mat2_vec a (mat2_vec b v).
Proof. destruct a, b, v; unfold mat2_vec, mat2_mul; simpl; f_equal; ring. Qed.

Lemma mat2_vec_id v : mat2_vec mat2_id v = v.
Proof. destruct v; unfold mat2_vec, mat2_id; simpl; f_equal; ring. Qed.

End Mat2Algebra.

(** ** Running computations on the store *)

Section Store.

Implicit Types (h : heap) (l : loc) (m : ndarray).

Lemma fresh_unbound h : h !! fresh (dom h) = None.
Proof. apply not_elem_of_dom, is_fresh. Qed.

Lemma init_run m h :
  TransferMatrix.init m h = (Ok (fresh (dom h)), <[fresh (dom h) := m]> h).
Proof. reflexivity. Qed.

Lemma matrix_run l m h :
  h !! l = Some m -> TransferMatrix.matrix l h = (Ok m, h).
Proof. intros Hl; unfold TransferMatrix.matrix; now rewrite Hl. Qed.

Lemma bind_run {A B} (c : Py A) (k : A -> Py B) a h h' :
  c h = (Ok a, h') -> bind c k h = k a h'.
Proof. intros Hc; unfold bind; now rewrite Hc. Qed.

Lemma bind_raise {A B} (c : Py A) (k : A -> Py B) e h h' :
  c h = (Raise e, h') -> bind c k h = (Raise e, h').
Proof. intros Hc; unfold bind; now rewrite Hc. Qed.

Lemma allocates_only_ret {A} (a : A) : allocates_only (ret a).
Proof. intros h; reflexivity. Qed.

Lemma allocates_only_raise {A} e : allocates_only (@raise A e).
Proof. intros h; reflexivity. Qed.

Lemma allocates_only_lift {A} (r : result A) : allocates_only (lift r).
Proof. intros h; reflexivity. Qed.

Lemma allocates_only_matrix l : allocates_only (TransferMatrix.matrix l).
Proof. intros h; unfold TransferMatrix.matrix; destruct (h !! l); reflexivity. Qed.

Lemma allocates_only_init m : allocates_only (TransferMatrix.init m).
Proof. intros h; simpl. apply insert_subseteq, fresh_unbound. Qed.

Lemma allocates_only_bind {A B} (c : Py A) (k : A -> Py B) :
  allocates_only c -> (forall a, allocates_only (k a)) -> allocates_only (bind c k).
Proof.
  intros Hc Hk h; unfold bind. specialize (Hc h).
  destruct (c h) as [[a | e] h1]; simpl in *; [| exact Hc].
  transitivity h1; [exact Hc | apply Hk].
Qed.

End Store.

Create HintDb alloc.
#[export] Hint Resolve allocates_only_ret allocates_only_raise allocates_only_lift
  allocates_only_matrix allocates_only_init : alloc.

Ltac allocates_only_step :=
  match goal with
  | |- allocates_only (bind _ _) => apply allocates_only_bind; [| intros ?]
  | |- allocates_only (if ?b then _ else _) => destruct b
  | |- allocates_only _ => solve [auto with alloc]
  end.

Lemma allocates_only_structure_loop args mat :
  allocates_only (TransferMatrix.structure_loop args mat).
Proof.
  revert mat; induction args as [| l args IH]; intros mat; simpl.
  - auto with alloc.
  - apply allocates_only_bind; [auto with alloc | intros mm; apply IH].
Qed.
#[export] Hint Resolve allocates_only_structure_loop : alloc.

Lemma allocates_only_structure args : allocates_only (TransferMatrix.structure args).
Proof. unfold TransferMatrix.structure; repeat allocates_only_step. Qed.
#[export] Hint Resolve allocates_only_structure : alloc.

Lemma allocates_only_layer n d wavelength :
  allocates_only (TransferMatrix.layer n d wavelength).
Proof. unfold TransferMatrix.layer; repeat allocates_only_step. Qed.

Lemma allocates_only_solvePropagation tm f : allocates_only (solvePropagation tm f).
Proof. unfold solvePropagation; repeat allocates_only_step. Qed.

Lemma allocates_only_reciprocal D t r bottomMat topMat :
  allocates_only (findReciprocalTransferMatrix D t r bottomMat topMat).
Proof. unfold findReciprocalTransferMatrix; cbv zeta; repeat allocates_only_step. Qed.

Lemma allocates_only_legacy D t r bottomMat topMat :
  allocates_only (findReciprocalTransferMatrixLegacy D t r bottomMat topMat).
Proof. unfold findReciprocalTransferMatrixLegacy; cbv zeta; repeat allocates_only_step. Qed.

Lemma allocates_only_generalized D t1 r1 t2 r2 b1 p1 b2 p2 :
  allocates_only (findGeneralizedTransferMatrix D t1 r1 t2 r2 b1 p1 b2 p2).
Proof. unfold findGeneralizedTransferMatrix; cbv zeta; repeat allocates_only_step. Qed.

(** ** [numpy.linalg.solve] solves the system *)

Ltac eval_det :=
  unfold det, replace_col, item, multiply, hstack, vstack, zeros, rows;
  cbn [length det_n seq map fold_right nth drop_nth firstn skipn app sign
       Nat.even zip_with mat_vec repeat m00 m01 m10 m11 entries identity mat2_id].

Ltac list_eq :=
  repeat match goal with
         | |- _ :: _ = _ :: _ => apply (f_equal2 cons)
         | |- [] = [] => reflexivity
         end.

(** Solves a goal with divisions by [d], known by [Hd] not to be zero
    and by [Hdef] to be a polynomial of the other terms. *)
Ltac field_with Hdef Hd :=
  field_simplify_eq; [first [reflexivity | try rewrite Hdef; ring] | exact Hd].

Section Solve.

Lemma det_2 (a b c d : C) : det [[a; b]; [c; d]] = (a * d - b * c)%C.
Proof. eval_det. ring. Qed.

Lemma linalg_solve_2_sound (a b c d e f : C) x :
  linalg_solve [[a; b]; [c; d]] [e; f] = Ok x ->
  mat_vec [[a; b]; [c; d]] x = [e; f].
Proof.
  unfold linalg_solve.
  destruct (Ceq_dec (det [[a; b]; [c; d]]) C0) as [| Hd]; [discriminate |].
  intros [= <-]. remember (det [[a; b]; [c; d]]) as dA eqn:HdA.
  revert HdA; eval_det; intros HdA.
  list_eq; field_with HdA Hd.
Qed.

Lemma linalg_solve_2_complete (a b c d x y : C) :
  det [[a; b]; [c; d]] <> C0 ->
  linalg_solve [[a; b]; [c; d]] (mat_vec [[a; b]; [c; d]] [x; y]) = Ok [x; y].
Proof.
  unfold linalg_solve.
  destruct (Ceq_dec (det [[a; b]; [c; d]]) C0) as [| Hd]; [contradiction |].
  intros _. f_equal. remember (det [[a; b]; [c; d]]) as dA eqn:HdA.
  revert HdA; eval_det; intros HdA.
  list_eq; field_with HdA Hd.
Qed.

Lemma linalg_solve_singular (a : matrix) (b : vector) :
  det a = C0 <-> linalg_solve a b = Raise LinAlgError.
Proof.
  unfold linalg_solve; destruct (Ceq_dec (det a) C0); split; intros; easy.
Qed.

Variables a11 a12 a13 a14 a21 a22 a23 a24 a31 a32 a33 a34 a41 a42 a43 a44 : C.

Let A : matrix :=
  [[a11; a12; a13; a14]; [a21; a22; a23; a24];
   [a31; a32; a33; a34]; [a41; a42; a43; a44]].

Lemma linalg_solve_4_sound (b1 b2 b3 b4 : C) x :
  linalg_solve A [b1; b2; b3; b4] = Ok x -> mat_vec A x = [b1; b2; b3; b4].
Proof.
  unfold linalg_solve. destruct (Ceq_dec (det A) C0) as [| Hd]; [discriminate |].
  intros [= <-]. remember (det A) as dA eqn:HdA. subst A.
  revert HdA; eval_det; intros HdA.
  list_eq; field_with HdA Hd.
Qed.

Lemma linalg_solve_4_complete (x1 x2 x3 x4 : C) :
  det A <> C0 ->
  linalg_solve A (mat_vec A [x1; x2; x3; x4]) = Ok [x1; x2; x3; x4].
Proof.
  unfold linalg_solve. destruct (Ceq_dec (det A) C0) as [| Hd]; [contradiction |].
  intros _. f_equal. remember (det A) as dA eqn:HdA. subst A.
  revert HdA; eval_det; intros HdA.
  list_eq; field_with HdA Hd.
Qed.

End Solve.

(** ** Invertible matrices *)

Lemma invertible_det (a : mat2) : invertible a <-> mat2_det a <> C0.
Proof.
  split.
  - intros (b & Hab & _). now apply mat2_inverse_unique in Hab.
  - intros Hd. exists (mat2_inv a). split; [now apply mat2_inv_r | now apply mat2_inv_l].
Qed.

Lemma singular_det (a : mat2) : singular a <-> mat2_det a = C0.
Proof.
  unfold singular. rewrite invertible_det.
  destruct (Ceq_dec (mat2_det a) C0); tauto.
Qed.

Lemma invertible_inverse (a b : mat2) :
  a × b = mat2_id -> b × a = mat2_id -> b = mat2_inv a.
Proof. intros Hab _. now apply mat2_inverse_unique in Hab. Qed.

Lemma invertible_id : invertible mat2_id.
Proof. exists mat2_id. now rewrite mat2_mul_id_l. Qed.

Lemma linalg_inv_run (a : ndarray) :
  invertible (entries a) ->
  linalg_inv a = Ok (NdArray (linalg_type (dtype_of a)) (mat2_inv (entries a))).
Proof.
  rewrite invertible_det. intros Hd. unfold linalg_inv.
  now destruct (Ceq_dec (mat2_det (entries a)) C0).
Qed.

Lemma linalg_inv_singular (a : ndarray) :
  singular (entries a) -> linalg_inv a = Raise LinAlgError.
Proof.
  rewrite singular_det. intros Hd. unfold linalg_inv.
  now destruct (Ceq_dec (mat2_det (entries a)) C0).
Qed.

(** ** solvePropagation *)

Section SolvePropagation.

Variables (h : heap) (tm : loc) (T : ndarray) (f : C).
Hypothesis Htm : h !! tm = Some T.

Lemma propagation_lhs_det : mat2_det (propagation_lhs (entries T)) = m11 (entries T).
Proof. unfold mat2_det, propagation_lhs; simpl. ring. Qed.

Lemma solvePropagation_singular :
  m11 (entries T) = C0 -> solvePropagation tm f h = (Raise LinAlgError, h).
Proof.
  intros H0. unfold solvePropagation.
  rewrite (bind_run _ _ _ _ _ (matrix_run _ _ _ Htm)). cbv zeta.
  erewrite bind_raise; [reflexivity |]. unfold lift. f_equal.
  apply linalg_solve_singular. rewrite det_2, H0. ring.
Qed.

Lemma solvePropagation_run :
  m11 (entries T) <> C0 ->
  solvePropagation tm f h = (Ok (propagation_solution (entries T) f), h).
Proof.
  intros Hd. unfold solvePropagation, propagation_solution.
  rewrite (bind_run _ _ _ _ _ (matrix_run _ _ _ Htm)). cbv zeta.
  set (E := entries T) in *.
  assert (Hs : linalg_solve [[m01 E; (- C1)%C]; [m11 E; C0]]
                 (multiply [(- m00 E)%C; (- m10 E)%C] f)
               = Ok [(- (m10 E * f) / m11 E)%C;
                     (m00 E * f - m01 E * (m10 E * f) / m11 E)%C]).
  { replace (multiply [(- m00 E)%C; (- m10 E)%C] f)
      with (mat_vec [[m01 E; (- C1)%C]; [m11 E; C0]]
              [(- (m10 E * f) / m11 E)%C;
               (m00 E * f - m01 E * (m10 E * f) / m11 E)%C]).
    - apply linalg_solve_2_complete.
      rewrite det_2. intros H0. apply Hd. rewrite <- H0. ring.
    - eval_det. list_eq; field; exact Hd. }
  erewrite bind_run; [| unfold lift; rewrite Hs; reflexivity].
  reflexivity.
Qed.

End SolvePropagation.

Lemma mat2_vec_cancel (a : mat2) (v w : vec2) :
  invertible a -> mat2_vec a v = mat2_vec a w -> v = w.
Proof.
  intros (b & _ & Hba) Hvw.
  rewrite <- (mat2_vec_id v), <- (mat2_vec_id w), <- Hba, !mat2_vec_mul.
  now rewrite Hvw.
Qed.

(** C2.  [solvePropagation] returns the one pair (reflectance,
    transmittance) that solves [lhs * (reflectance, transmittance) = rhs]
    for [lhs = [[T01, -1], [T11, 0]]] and [rhs = f * (-T00, -T10)], and it
    raises numpy's [LinAlgError] exactly when [lhs] is singular.  The
    store is left as it was. *)
Theorem solvePropagation_solves_system (h : heap) (tm : loc) (T : ndarray) (f : C) :
  h !! tm = Some T ->
  let lhs := propagation_lhs (entries T) in
  let rhs := propagation_rhs (entries T) f in
  (singular lhs <-> outcome (solvePropagation tm f) h = Raise LinAlgError) /\
  (invertible lhs ->
   exists r t,
     solvePropagation tm f h = (Ok (r, t), h) /\
     mat2_vec lhs (r, t) = rhs /\
     forall r' t', mat2_vec lhs (r', t') = rhs -> r' = r /\ t' = t).
Proof.
  intros Htm lhs rhs. split.
  - rewrite singular_det. unfold lhs. rewrite (propagation_lhs_det T).
    destruct (Ceq_dec (m11 (entries T)) C0) as [H0 | Hd].
    + unfold outcome. rewrite (solvePropagation_singular h tm T f Htm H0). tauto.
    + unfold outcome. rewrite (solvePropagation_run h tm T f Htm Hd). simpl.
      split; [contradiction | discriminate].
  - intros Hinv. pose proof Hinv as Hd.
    rewrite invertible_det in Hd. unfold lhs in Hd. rewrite (propagation_lhs_det T) in Hd.
    eexists _, _. split; [apply (solvePropagation_run h tm T f Htm Hd) |].
    assert (Hsol : mat2_vec lhs
                     ((- (m10 (entries T) * f) / m11 (entries T))%C,
                      (m00 (entries T) * f
                       - m01 (entries T) * (m10 (entries T) * f) / m11 (entries T))%C)
                   = rhs).
    { unfold mat2_vec, lhs, rhs, propagation_lhs, propagation_rhs; simpl.
      f_equal; field; exact Hd. }
    split; [exact Hsol |].
    intros r' t' Hsol'. rewrite <- Hsol in Hsol'.
    apply (mat2_vec_cancel _ _ _ Hinv) in Hsol'. now injection Hsol'.
Qed.

(** An instance: the identity transfer matrix with unit incident field. *)
Lemma solvePropagation_solves_system_witness :
  let h : heap := {[ 1%positive := identity complex128 ]} in
  let lhs := propagation_lhs mat2_id in
  let rhs := propagation_rhs mat2_id C1 in
  h !! 1%positive = Some (identity complex128) /\
  invertible lhs /\
  exists r t,
    solvePropagation 1%positive C1 h = (Ok (r, t), h) /\
    mat2_vec lhs (r, t) = rhs /\
    forall r' t', mat2_vec lhs (r', t') = rhs -> r' = r /\ t' = t.
Proof.
  assert (Hinv : invertible (propagation_lhs mat2_id)).
  { apply invertible_det.
    change (mat2_det (propagation_lhs (entries (identity complex128))) <> C0).
    rewrite propagation_lhs_det. exact C1_neq_C0. }
  split; [reflexivity |]. split; [exact Hinv |].
  exact (proj2 (solvePropagation_solves_system
                  {[ 1%positive := identity complex128 ]} 1%positive
                  (identity complex128) C1 eq_refl) Hinv).
Defined.

(** ** findReciprocalTransferMatrix *)

(** C3.  With transmittance 0, [findReciprocalTransferMatrix] fails on
    its [assert], before any division and before the bounding matrices are
    looked at, whatever the reflectance and the bounding matrices are. *)
Theorem findReciprocalTransferMatrix_rejects_zero_transmittance
    (D : defaults) (reflectance : C) (bottomMat topMat : option loc) (h : heap) :
  findReciprocalTransferMatrix D C0 reflectance bottomMat topMat h
  = (Raise AssertionError, h).
Proof.
  unfold findReciprocalTransferMatrix. cbv zeta.
  destruct (Ceq_dec C0 C0) as [_ | Hne]; [reflexivity | contradiction].
Qed.

(** The boundary correction shared by the two reciprocal solvers:
    [matrix = dot(inv(bottomMat.matrix), matrix)], then
    [matrix = dot(matrix, inv(topMat.matrix))], then a new instance. *)
Lemma boundary_correction_run (b p : loc) (B P mx : ndarray) (h : heap) :
  h !! b = Some B -> h !! p = Some P ->
  invertible (entries B) -> invertible (entries P) ->
  bind (TransferMatrix.matrix b) (fun bm =>
  bind (lift (linalg_inv bm)) (fun bi =>
  bind (TransferMatrix.matrix p) (fun tm =>
  bind (lift (linalg_inv tm)) (fun ti =>
  TransferMatrix.init (dot (dot bi mx) ti))))) h
  = (Ok (fresh (dom h)),
     <[fresh (dom h) := dot (dot (inv_array B) mx) (inv_array P)]> h).
Proof.
  intros Hb Hp HB HP.
  rewrite (bind_run _ _ _ _ _ (matrix_run _ _ _ Hb)).
  erewrite bind_run; [| unfold lift; rewrite (linalg_inv_run _ HB); reflexivity].
  rewrite (bind_run _ _ _ _ _ (matrix_run _ _ _ Hp)).
  erewrite bind_run; [| unfold lift; rewrite (linalg_inv_run _ HP); reflexivity].
  reflexivity.
Qed.

Lemma findReciprocalTransferMatrix_run
    (D : defaults) (t r : C) (bottomMat topMat : option loc) (B P : ndarray) (h : heap) :
  t <> C0 ->
  h !! arg_or (reciprocal_bottomMat D) bottomMat = Some B ->
  h !! arg_or (reciprocal_topMat D) topMat = Some P ->
  invertible (entries B) -> invertible (entries P) ->
  findReciprocalTransferMatrix D t r bottomMat topMat h
  = (Ok (fresh (dom h)),
     <[fresh (dom h) :=
         dot (dot (inv_array B) (NdArray complex128 (reciprocal_matrix t r)))
             (inv_array P)]> h).
Proof.
  intros Ht Hb Hp HB HP. unfold findReciprocalTransferMatrix. cbv zeta.
  destruct (Ceq_dec t C0) as [| _]; [contradiction |].
  exact (boundary_correction_run _ _ B P _ h Hb Hp HB HP).
Qed.


(** ** findReciprocalTransferMatrixLegacy *)

Section LegacySystem.

Variables rho sigma c d : C.
Let N : C := (C1 - (rho * rho + sigma * sigma))%C.

Lemma legacy_lhs_det : det (legacy_lhs rho sigma) = (N * N)%C.
Proof. unfold legacy_lhs, N. eval_det. ring. Qed.

Lemma legacy_system_solution :
  N <> C0 ->
  linalg_solve (legacy_lhs rho sigma) [c; d; C0; C0]
  = Ok [(c / N)%C; (d / N)%C;
        (- (rho * c + sigma * d) / N)%C; (- (sigma * c - rho * d) / N)%C].
Proof.
  intros HN.
  replace [c; d; C0; C0]
    with (mat_vec (legacy_lhs rho sigma)
            [(c / N)%C; (d / N)%C;
             (- (rho * c + sigma * d) / N)%C; (- (sigma * c - rho * d) / N)%C]).
  - apply linalg_solve_4_complete. fold (legacy_lhs rho sigma).
    rewrite legacy_lhs_det. now apply Cmul_neq_0.
  - unfold legacy_lhs. eval_det. remember N as n eqn:Hn. unfold N in Hn.
    list_eq; field_with Hn HN.
Qed.

Lemma legacy_system_singular (b : vector) :
  N = C0 -> linalg_solve (legacy_lhs rho sigma) b = Raise LinAlgError.
Proof.
  intros HN. apply linalg_solve_singular. rewrite legacy_lhs_det, HN. ring.
Qed.

End LegacySystem.

Lemma legacy_norm (r : C) :
  (C1 - (RtoC (Re r) * RtoC (Re r) + RtoC (Im r) * RtoC (Im r)))%C
  = RtoC (1 - Cnorm2 r).
Proof. C_components. f_equal; ring. Qed.

Lemma RtoC_neq_0 (x : R) : x <> 0 -> RtoC x <> C0.
Proof. intros Hx H. apply Hx. now apply RtoC_inj in H. Qed.

Lemma legacy_matrix_eq (t r : C) :
  1 - Cnorm2 r <> 0 ->
  let N := RtoC (1 - Cnorm2 r) in
  let c := RtoC (Re t) in
  let d := RtoC (Im t) in
  let rho := RtoC (Re r) in
  let sigma := RtoC (Im r) in
  Mat2 (c / N + Ci * (d / N))
       (- (rho * c + sigma * d) / N - Ci * (- (sigma * c - rho * d) / N))
       (- (rho * c + sigma * d) / N + Ci * (- (sigma * c - rho * d) / N))
       (c / N - Ci * (d / N))
  = legacy_matrix t r.
Proof.
  intros Hn. cbv zeta. unfold legacy_matrix. cbv zeta.
  destruct t as [c d], r as [rho sigma].
  unfold Cdiv, Cinv, Csub, Cmul, Cadd, Copp, Cconj, Cnorm2, C0, C1, Ci, RtoC, Re, Im in *;
    simpl in *.
  f_equal; (f_equal; field; lra).
Qed.

Lemma findReciprocalTransferMatrixLegacy_run
    (D : defaults) (t r : C) (bottomMat topMat : option loc) (B P : ndarray) (h : heap) :
  Cnorm2 r <> 1 ->
  h !! arg_or (legacy_bottomMat D) bottomMat = Some B ->
  h !! arg_or (legacy_topMat D) topMat = Some P ->
  invertible (entries B) -> invertible (entries P) ->
  findReciprocalTransferMatrixLegacy D t r bottomMat topMat h
  = (Ok (fresh (dom h)),
     <[fresh (dom h) :=
         dot (dot (inv_array B) (NdArray complex128 (legacy_matrix t r)))
             (inv_array P)]> h).
Proof.
  intros Hr Hb Hp HB HP. unfold findReciprocalTransferMatrixLegacy. cbv zeta.
  assert (HN : RtoC (1 - Cnorm2 r) <> C0) by (apply RtoC_neq_0; lra).
  rewrite <- legacy_norm in HN.
  erewrite bind_run;
    [| unfold lift; f_equal;
       exact (legacy_system_solution _ _ (RtoC (Re t)) (RtoC (Im t)) HN)].
  rewrite (boundary_correction_run _ _ B P _ h Hb Hp HB HP).
  do 4 f_equal. cbn [item nth]. rewrite legacy_norm. unfold array. f_equal.
  apply legacy_matrix_eq; lra.
Qed.

(** *** The two reciprocal solvers compared *)

Lemma Cnorm2_conj (t : C) : RtoC (Cnorm2 t) = (t * Cconj t)%C.
Proof. symmetry; apply Cmul_conj. Qed.

Lemma imaginary_conj (z : C) : Re z = 0 -> Cconj z = (- z)%C.
Proof. C_components. intros ->. f_equal; ring. Qed.

(** On a lossless pair ([|r|^2 + |t|^2 = 1]) whose [r * conj(t)] is
    purely imaginary, the legacy system yields the matrix of the direct
    formula. *)
Lemma legacy_matrix_reciprocal (t r : C) :
  t <> C0 -> Cnorm2 r + Cnorm2 t = 1 -> Re (r * Cconj t) = 0 ->
  legacy_matrix t r = reciprocal_matrix t r.
Proof.
  intros Ht Hloss Him.
  assert (HN : RtoC (1 - Cnorm2 r) = (t * Cconj t)%C).
  { rewrite <- Cnorm2_conj. f_equal. lra. }
  pose proof (Cconj_neq_0 t Ht) as Hct.
  assert (Hcr : Cconj r = (- (r * Cconj t) / t)%C).
  { apply imaginary_conj in Him. rewrite Cconj_mul, Cconj_invol in Him.
    replace (Cconj r) with (Cconj r * t / t)%C by (field; exact Ht).
    now rewrite Him. }
  unfold legacy_matrix, reciprocal_matrix. cbv zeta.
  rewrite HN, (Cconj_div r t Ht), Hcr.
  generalize dependent (Cconj t). intros ct _ _ Hct _.
  f_equal; field; auto.
Qed.

(** With a nonsingular legacy system, the two matrices are equal only on
    such pairs. *)
Lemma legacy_matrix_reciprocal_only (t r : C) :
  t <> C0 -> Cnorm2 r <> 1 ->
  legacy_matrix t r = reciprocal_matrix t r ->
  Cnorm2 r + Cnorm2 t = 1 /\ Re (r * Cconj t) = 0.
Proof.
  intros Ht Hr Heq.
  assert (HN : RtoC (1 - Cnorm2 r) <> C0) by (apply RtoC_neq_0; lra).
  pose proof (f_equal m11 Heq) as H11. pose proof (f_equal m01 Heq) as H01.
  unfold legacy_matrix, reciprocal_matrix in H11, H01. cbv zeta in H11, H01.
  cbn [m11 m01] in H11, H01.
  set (N := RtoC (1 - Cnorm2 r)) in *.
  assert (Hn : (t * Cconj t)%C = N).
  { replace (t * Cconj t)%C with (Cconj t / N * (N * t))%C by (field; exact HN).
    rewrite H11. field. exact Ht. }
  assert (Hloss : Cnorm2 r + Cnorm2 t = 1).
  { rewrite Cmul_conj in Hn. apply RtoC_inj in Hn. lra. }
  split; [exact Hloss |].
  assert (Hz : (- (Cconj r * t))%C = (r * Cconj t)%C).
  { replace (- (Cconj r * t))%C with (- (Cconj r * t) / N * N)%C by (field; exact HN).
    rewrite H01, <- Hn. field. exact Ht. }
  apply (f_equal Re) in Hz. revert Hz. clear.
  destruct t as [c d], r as [rho sigma].
  cbv [Cmul Copp Cconj Re Im fst snd]. lra.
Qed.

(** *** Instances *)


Lemma identity_correction (x : mat2) (t1 t2 t3 : dtype) :
  entries (dot (dot (inv_array (identity t1)) (NdArray t2 x)) (inv_array (identity t3))) = x.
Proof.
  unfold dot, inv_array, identity; simpl.
  now rewrite mat2_inv_id, mat2_mul_id_l, mat2_mul_id_r.
Qed.

(** C5 at the failing input.  The pair [t = 2], [r = 0] is what
    [solvePropagation] returns on the reciprocal matrix [[2, 0], [0, 2]].
    With identity bounding matrices the legacy system is nonsingular and
    the legacy solver returns [[2, 0], [0, 2]], which satisfies the relation
    of the class docstring, [(T, 0) = Matrix * (1, R)];
    [findReciprocalTransferMatrix] returns [[1/2, 0], [0, 1/2]], which does
    not. *)
Theorem findReciprocalTransferMatrix_differs_from_legacy :
  let h : heap := <[ 2%positive := array complex128 2 C0 C0 2 ]> unit_heap in
  let t : C := RtoC 2 in
  let r : C := C0 in
  solvePropagation 2%positive C1 h = (Ok (r, t), h) /\
  exists (l : loc) (m m' : ndarray),
    findReciprocalTransferMatrix unit_defaults t r None None h = (Ok l, <[l := m]> h) /\
    findReciprocalTransferMatrixLegacy unit_defaults t r None None h
    = (Ok l, <[l := m']> h) /\
    entries m = Mat2 (RtoC (1 / 2)) C0 C0 (RtoC (1 / 2)) /\
    entries m' = Mat2 2 C0 C0 2 /\
    entries m <> entries m' /\
    mat2_vec (entries m') (C1, r) = (t, C0) /\
    mat2_vec (entries m) (C1, r) <> (t, C0).
Proof.
  intros h t r. subst t r.
  assert (H2 : RtoC 2 <> C0) by exact C2_neq_0.
  assert (Hd : entries (dot (dot (inv_array (identity float64))
                                 (NdArray complex128 (reciprocal_matrix 2 C0)))
                            (inv_array (identity float64)))
               = Mat2 (RtoC (1 / 2)) C0 C0 (RtoC (1 / 2))).
  { rewrite identity_correction. unfold reciprocal_matrix.
    C_components. f_equal; f_equal; field. }
  assert (Hl : entries (dot (dot (inv_array (identity float64))
                                 (NdArray complex128 (legacy_matrix 2 C0)))
                            (inv_array (identity float64)))
               = Mat2 2 C0 C0 2).
  { rewrite identity_correction. unfold legacy_matrix. cbv zeta.
    C_components. f_equal; f_equal; field. }
  split.
  - rewrite (solvePropagation_run h 2%positive (array complex128 2 C0 C0 2) C1 eq_refl);
      [| exact H2].
    unfold propagation_solution. cbn [entries array m00 m01 m10 m11].
    do 2 f_equal. f_equal; field; exact H2.
  - eexists _, _, _. split; [| split; [| split; [| split; [| split; [| split]]]]].
    + apply (findReciprocalTransferMatrix_run unit_defaults 2 C0 None None
               (identity float64) (identity float64) h H2 eq_refl eq_refl
               invertible_id invertible_id).
    + apply (findReciprocalTransferMatrixLegacy_run unit_defaults 2 C0 None None
               (identity float64) (identity float64) h);
        [unfold Cnorm2, C0, RtoC; simpl; lra | reflexivity | reflexivity
        | exact invertible_id | exact invertible_id].
    + exact Hd.
    + exact Hl.
    + rewrite Hd, Hl. intros H. apply (f_equal m00) in H.
      apply (f_equal Re) in H. revert H. cbv [m00 RtoC Re fst]. lra.
    + rewrite Hl. unfold mat2_vec; cbn [m00 m01 m10 m11 fst snd].
      f_equal; ring.
    + rewrite Hd. intros H. apply (f_equal fst) in H. apply (f_equal Re) in H.
      revert H. unfold mat2_vec; cbn [m00 m01 m10 m11 fst snd].
      C_components. lra.
Qed.

(** ** Round trip: solvePropagation, then findReciprocalTransferMatrix *)

Lemma Cconj_opp (z : C) : Cconj (- z) = (- Cconj z)%C.
Proof. C_components. f_equal; ring. Qed.

Lemma Cconj_sub (z w : C) : Cconj (z - w) = (Cconj z - Cconj w)%C.
Proof. C_components. f_equal; ring. Qed.

Lemma Cdiv_neq_0 (z w : C) : z <> C0 -> w <> C0 -> (z / w)%C <> C0.
Proof.
  intros Hz Hw H0. apply Hz.
  replace z with (z / w * w)%C by (field; exact Hw). rewrite H0. ring.
Qed.

(** What the round trip yields on a reciprocal matrix
    [[a, b], [conj b, conj a]] of determinant [d]:
    [1/d * [[a, -conj b], [-b, conj a]]]. *)
Lemma round_trip_matrix (a b : C) :
  let E := Mat2 a b (Cconj b) (Cconj a) in
  a <> C0 -> mat2_det E <> C0 ->
  let r := (- (m10 E * C1) / m11 E)%C in
  let t := (m00 E * C1 - m01 E * (m10 E * C1) / m11 E)%C in
  t <> C0 /\
  reciprocal_matrix t r
  = mat2_scale (/ mat2_det E) (Mat2 a (- Cconj b) (- b) (Cconj a)).
Proof.
  intros E Ha Hd r t. subst E r t. cbv [m00 m01 m10 m11 mat2_det] in *.
  pose proof (Cconj_neq_0 a Ha) as Hca.
  pose proof (Cconj_invol a) as Haa. pose proof (Cconj_invol b) as Hbb.
  set (ca := Cconj a) in *. set (cb := Cconj b) in *.
  set (d := (a * ca - b * cb)%C) in *.
  assert (Hcd : Cconj d = d).
  { unfold d. rewrite Cconj_sub, !Cconj_mul. fold ca cb. rewrite Haa, Hbb. ring. }
  assert (Ht : (a * C1 - b * (cb * C1) / ca)%C = (d / ca)%C).
  { unfold d. field. exact Hca. }
  assert (Hr : (- (cb * C1) / ca)%C = (- cb / ca)%C) by (field; exact Hca).
  rewrite Ht, Hr. split; [now apply Cdiv_neq_0 |].
  unfold reciprocal_matrix, mat2_scale. cbv [m00 m01 m10 m11].
  rewrite (Cconj_div (- cb / ca) (d / ca)) by now apply Cdiv_neq_0.
  rewrite !Cconj_div, Cconj_opp by assumption.
  rewrite Hcd, Haa, Hbb.
  clearbody d ca cb. f_equal; field; auto.
Qed.

Lemma round_trip_reciprocal (E : mat2) :
  reciprocal E -> m00 E <> C0 -> mat2_det E <> C0 ->
  let r := (- (m10 E * C1) / m11 E)%C in
  let t := (m00 E * C1 - m01 E * (m10 E * C1) / m11 E)%C in
  t <> C0 /\
  reciprocal_matrix t r
  = mat2_scale (/ mat2_det E) (Mat2 (m00 E) (- m10 E) (- m01 E) (m11 E)).
Proof.
  destruct E as [a b c d]. intros [Hd Hc]. simpl in Hd, Hc. subst c d.
  exact (round_trip_matrix a b).
Qed.

Lemma Cnorm2_nonneg (z : C) : 0 <= Cnorm2 z.
Proof. unfold Cnorm2. nra. Qed.

(** A reciprocal matrix of determinant 1 has [M00 <> 0]. *)
Lemma reciprocal_unimodular_m00 (E : mat2) :
  reciprocal E -> mat2_det E = C1 -> m00 E <> C0.
Proof.
  destruct E as [a b c d]. intros [Hd Hc]. simpl in Hd, Hc. subst c d.
  unfold mat2_det; simpl. intros Hdet Ha. subst a.
  apply (f_equal Re) in Hdet. revert Hdet. destruct b as [b1 b2].
  cbv [Csub Cadd Copp Cmul Cconj C0 C1 RtoC Re Im fst snd]. nra.
Qed.

Lemma findReciprocalTransferMatrix_run_identity
    (D : defaults) (t r : C) (bottomMat topMat : option loc) (B P : ndarray) (h : heap) :
  t <> C0 ->
  h !! arg_or (reciprocal_bottomMat D) bottomMat = Some B -> entries B = mat2_id ->
  h !! arg_or (reciprocal_topMat D) topMat = Some P -> entries P = mat2_id ->
  exists m,
    findReciprocalTransferMatrix D t r bottomMat topMat h
    = (Ok (fresh (dom h)), <[fresh (dom h) := m]> h) /\
    entries m = reciprocal_matrix t r.
Proof.
  intros Ht Hb HB Hp HP. eexists. split.
  - apply (findReciprocalTransferMatrix_run D t r _ _ B P h); try assumption.
    + rewrite HB; apply invertible_id.
    + rewrite HP; apply invertible_id.
  - unfold dot, inv_array; simpl.
    now rewrite HB, HP, mat2_inv_id, mat2_mul_id_l, mat2_mul_id_r.
Qed.

Lemma Cconj_RtoC (x : R) : Cconj (RtoC x) = RtoC x.
Proof. C_components. f_equal; ring. Qed.

(** C8 at the failing input.  [M = [[5/3, 4/3], [4/3, 5/3]]] is
    reciprocal and its system is nonsingular; [solvePropagation] returns
    [(r, t) = (-4/5, 3/5)].  With identity bounding matrices
    [findReciprocalTransferMatrix(t, r)] returns
    [[5/3, -4/3], [-4/3, 5/3]], which is not [M]; the legacy solver
    returns [M] on the same pair. *)
Theorem findReciprocalTransferMatrix_breaks_round_trip :
  let M := lossless_asymmetric_sample in
  let h : heap := <[ 2%positive := M ]> unit_heap in
  let r : C := RtoC (- (4 / 5)) in
  let t : C := RtoC (3 / 5) in
  reciprocal (entries M) /\
  invertible (propagation_lhs (entries M)) /\
  solvePropagation 2%positive C1 h = (Ok (r, t), h) /\
  t <> C0 /\
  exists (l : loc) (m m' : ndarray),
    findReciprocalTransferMatrix unit_defaults t r None None h = (Ok l, <[l := m]> h) /\
    findReciprocalTransferMatrixLegacy unit_defaults t r None None h
    = (Ok l, <[l := m']> h) /\
    entries m = Mat2 (RtoC (5 / 3)) (RtoC (- (4 / 3))) (RtoC (- (4 / 3))) (RtoC (5 / 3)) /\
    entries m <> entries M /\
    entries m' = entries M.
Proof.
  intros M h r t.
  assert (Ht : t <> C0) by (apply RtoC_neq_0; lra).
  assert (Hm11 : m11 (entries M) <> C0) by (apply RtoC_neq_0; lra).
  assert (Hd : entries (dot (dot (inv_array (identity float64))
                                 (NdArray complex128 (reciprocal_matrix t r)))
                            (inv_array (identity float64)))
               = Mat2 (RtoC (5 / 3)) (RtoC (- (4 / 3))) (RtoC (- (4 / 3))) (RtoC (5 / 3))).
  { rewrite identity_correction. unfold reciprocal_matrix, t, r.
    C_components. f_equal; f_equal; field. }
  split; [| split; [| split; [| split]]].
  - split; cbn [entries array m00 m01 m10 m11 M lossless_asymmetric_sample];
      now rewrite Cconj_RtoC.
  - apply invertible_det. now rewrite propagation_lhs_det.
  - rewrite (solvePropagation_run h 2%positive M C1 eq_refl Hm11).
    unfold propagation_solution, r, t.
    cbn [entries array m00 m01 m10 m11 M lossless_asymmetric_sample].
    do 2 f_equal. C_components. f_equal; f_equal; field.
  - exact Ht.
  - eexists _, _, _. split; [| split; [| split; [| split]]].
    + apply (findReciprocalTransferMatrix_run unit_defaults t r None None
               (identity float64) (identity float64) h Ht eq_refl eq_refl
               invertible_id invertible_id).
    + apply (findReciprocalTransferMatrixLegacy_run unit_defaults t r None None
               (identity float64) (identity float64) h);
        [unfold r, Cnorm2, RtoC; simpl; lra | reflexivity | reflexivity
        | exact invertible_id | exact invertible_id].
    + exact Hd.
    + rewrite Hd. intros H. apply (f_equal m01) in H. apply (f_equal Re) in H.
      revert H. cbn [entries array m00 m01 m10 m11 M lossless_asymmetric_sample].
      cbv [RtoC Re fst]. lra.
    + rewrite identity_correction. unfold legacy_matrix, t, r. cbv zeta.
      cbn [entries array m00 m01 m10 m11 M lossless_asymmetric_sample].
      C_components. f_equal; f_equal; field.
Qed.

(** ** findGeneralizedTransferMatrix *)

(** What [solvePropagation] returns satisfies the relation of the class
    docstring, [(T, 0) = Matrix * (1, R)]. *)
Lemma solvePropagation_relation (E : mat2) :
  m11 E <> C0 ->
  let r := (- (m10 E * C1) / m11 E)%C in
  let t := (m00 E * C1 - m01 E * (m10 E * C1) / m11 E)%C in
  mat2_vec E (C1, r) = (t, C0).
Proof.
  intros Hd. cbv zeta. unfold mat2_vec; simpl. f_equal; field; exact Hd.
Qed.

(** If a matrix [M] satisfies the docstring relation for both
    measurements, [bottomMat_i^-1 * (t_i, 0) = M * topMat_i * (1, r_i)], and
    the assembled system is nonsingular, the generalized solver returns
    the transpose of [M]. *)
Lemma findGeneralizedTransferMatrix_run
    (D : defaults) (M : mat2) (t1 r1 t2 r2 : C)
    (bottomMat1 topMat1 bottomMat2 topMat2 : option loc)
    (B1 P1 B2 P2 : ndarray) (h : heap) :
  h !! arg_or (generalized_bottomMat1 D) bottomMat1 = Some B1 ->
  h !! arg_or (generalized_topMat1 D) topMat1 = Some P1 ->
  h !! arg_or (generalized_bottomMat2 D) bottomMat2 = Some B2 ->
  h !! arg_or (generalized_topMat2 D) topMat2 = Some P2 ->
  invertible (entries B1) -> invertible (entries B2) ->
  mat2_vec (mat2_inv (entries B1)) (t1, C0)
    = mat2_vec M (mat2_vec (entries P1) (C1, r1)) ->
  mat2_vec (mat2_inv (entries B2)) (t2, C0)
    = mat2_vec M (mat2_vec (entries P2) (C1, r2)) ->
  det (generalized_lhs (mat2_vec (entries P1) (C1, r1))
                       (mat2_vec (entries P2) (C1, r2))) <> C0 ->
  findGeneralizedTransferMatrix D t1 r1 t2 r2 bottomMat1 topMat1 bottomMat2 topMat2 h
  = (Ok (fresh (dom h)),
     <[fresh (dom h) := NdArray complex128 (mat2_transpose M)]> h).
Proof.
  intros Hb1 Hp1 Hb2 Hp2 HB1 HB2 Hm1 Hm2 Hdet.
  unfold findGeneralizedTransferMatrix. cbv zeta.
  rewrite (bind_run _ _ _ _ _ (matrix_run _ _ _ Hb1)).
  erewrite bind_run; [| unfold lift; rewrite (linalg_inv_run _ HB1); reflexivity].
  rewrite (bind_run _ _ _ _ _ (matrix_run _ _ _ Hb2)).
  erewrite bind_run; [| unfold lift; rewrite (linalg_inv_run _ HB2); reflexivity].
  rewrite (bind_run _ _ _ _ _ (matrix_run _ _ _ Hp1)).
  rewrite (bind_run _ _ _ _ _ (matrix_run _ _ _ Hp2)).
  unfold dot_col. cbn [entries]. rewrite Hm1, Hm2.
  set (b12 := mat2_vec (entries P1) (C1, r1)) in *.
  set (b34 := mat2_vec (entries P2) (C1, r2)) in *.
  assert (Hs : linalg_solve
                 (vstack (hstack [[fst b12; snd b12]; [fst b34; snd b34]] (zeros 2 2))
                         (hstack (zeros 2 2) [[fst b12; snd b12]; [fst b34; snd b34]]))
                 [fst (mat2_vec M b12); fst (mat2_vec M b34);
                  snd (mat2_vec M b12); snd (mat2_vec M b34)]
               = Ok [m00 M; m01 M; m10 M; m11 M]).
  { change (vstack _ _) with (generalized_lhs b12 b34).
    replace [fst (mat2_vec M b12); fst (mat2_vec M b34);
             snd (mat2_vec M b12); snd (mat2_vec M b34)]
      with (mat_vec (generalized_lhs b12 b34) [m00 M; m01 M; m10 M; m11 M]).
    - apply linalg_solve_4_complete. exact Hdet.
    - unfold generalized_lhs, mat2_vec. eval_det. cbn [fst snd].
      list_eq; ring. }
  erewrite bind_run; [| unfold lift; rewrite Hs; reflexivity].
  reflexivity.
Qed.

(** Two measurements taken from the same [M] through
    [solvePropagation] on [bottomMat_i * M * topMat_i]: the generalized
    solver returns the transpose of [M]. *)
Lemma findGeneralizedTransferMatrix_transposes
    (D : defaults) (M : mat2)
    (bottomMat1 topMat1 bottomMat2 topMat2 : option loc)
    (B1 P1 B2 P2 T1 T2 : ndarray) (tm1 tm2 : loc) (h : heap) :
  h !! arg_or (generalized_bottomMat1 D) bottomMat1 = Some B1 ->
  h !! arg_or (generalized_topMat1 D) topMat1 = Some P1 ->
  h !! arg_or (generalized_bottomMat2 D) bottomMat2 = Some B2 ->
  h !! arg_or (generalized_topMat2 D) topMat2 = Some P2 ->
  invertible (entries B1) -> invertible (entries B2) ->
  h !! tm1 = Some T1 -> entries T1 = entries B1 × M × entries P1 ->
  h !! tm2 = Some T2 -> entries T2 = entries B2 × M × entries P2 ->
  m11 (entries T1) <> C0 -> m11 (entries T2) <> C0 ->
  let '(r1, t1) := propagation_solution (entries T1) C1 in
  let '(r2, t2) := propagation_solution (entries T2) C1 in
  solvePropagation tm1 C1 h = (Ok (r1, t1), h) /\
  solvePropagation tm2 C1 h = (Ok (r2, t2), h) /\
  (det (generalized_lhs (mat2_vec (entries P1) (C1, r1))
                        (mat2_vec (entries P2) (C1, r2))) <> C0 ->
   findGeneralizedTransferMatrix D t1 r1 t2 r2
     bottomMat1 topMat1 bottomMat2 topMat2 h
   = (Ok (fresh (dom h)),
      <[fresh (dom h) := NdArray complex128 (mat2_transpose M)]> h)).
Proof.
  intros Hb1 Hp1 Hb2 Hp2 HB1 HB2 Ht1 HT1 Ht2 HT2 Hd1 Hd2.
  unfold propagation_solution. split; [| split].
  - apply (solvePropagation_run h tm1 T1 C1 Ht1 Hd1).
  - apply (solvePropagation_run h tm2 T2 C1 Ht2 Hd2).
  - intros Hdet.
    apply (findGeneralizedTransferMatrix_run D M _ _ _ _ _ _ _ _ B1 P1 B2 P2 h);
      try assumption.
    + rewrite <- (solvePropagation_relation _ Hd1), HT1, !mat2_vec_mul,
        <- (mat2_vec_mul (mat2_inv (entries B1))), mat2_inv_l, mat2_vec_id;
        [reflexivity | now apply invertible_det].
    + rewrite <- (solvePropagation_relation _ Hd2), HT2, !mat2_vec_mul,
        <- (mat2_vec_mul (mat2_inv (entries B2))), mat2_inv_l, mat2_vec_id;
        [reflexivity | now apply invertible_det].
Qed.

Lemma shear_between_identities : shear = mat2_id × shear × mat2_id.
Proof. now rewrite mat2_mul_id_l, mat2_mul_id_r. Qed.

Lemma shear_under_swap : swapped_shear = swap × shear × swap.
Proof.
  unfold swapped_shear, swap, shear, mat2_mul; cbn [m00 m01 m10 m11]. f_equal; ring.
Qed.

Lemma invertible_swap : invertible swap.
Proof. exists swap. unfold swap, mat2_mul, mat2_id; simpl. split; f_equal; ring. Qed.

Lemma measurement_1 : propagation_solution shear C1 = (C0, C1).
Proof.
  unfold propagation_solution, shear; cbn [m00 m01 m10 m11].
  f_equal; field; exact C1_neq_C0.
Qed.

Lemma measurement_2 :
  propagation_solution swapped_shear C1 = ((- C1)%C, C1).
Proof.
  unfold propagation_solution, swapped_shear; cbn [m00 m01 m10 m11].
  f_equal; field; exact C1_neq_C0.
Qed.

(** C6 at the failing input.  Both measurements come from
    [M = [[1, 1], [0, 1]]] through [solvePropagation]: [(r1, t1) = (0, 1)]
    on [M] between identity bounding matrices and [(r2, t2) = (-1, 1)] on
    [J * M * J]; the bottom matrices are invertible and the assembled
    system is nonsingular.  [findGeneralizedTransferMatrix] returns
    [[1, 0], [1, 1]], the transpose of [M], not [M]. *)
Theorem findGeneralizedTransferMatrix_returns_transpose :
  let h := measurement_heap in
  solvePropagation 2%positive C1 h = (Ok (C0, C1), h) /\
  solvePropagation 4%positive C1 h = (Ok ((- C1)%C, C1), h) /\
  det (generalized_lhs (mat2_vec mat2_id (C1, C0))
                       (mat2_vec swap (C1, (- C1)%C))) <> C0 /\
  exists (l : loc) (m : ndarray),
    findGeneralizedTransferMatrix unit_defaults C1 C0 C1 (- C1)
      None None (Some 3%positive) (Some 3%positive) h
    = (Ok l, <[l := m]> h) /\
    entries m = mat2_transpose shear /\
    entries m <> shear.
Proof.
  intros h.
  assert (Hd1 : m11 shear <> C0) by exact C1_neq_C0.
  assert (Hd2 : m11 swapped_shear <> C0) by exact C1_neq_C0.
  assert (Hdet : det (generalized_lhs (mat2_vec mat2_id (C1, C0))
                        (mat2_vec swap (C1, (- C1)%C))) <> C0).
  { unfold generalized_lhs, mat2_vec, mat2_id, swap; cbn [m00 m01 m10 m11 fst snd].
    eval_det. intros H. apply C1_neq_C0. rewrite <- H. ring. }
  pose proof (findGeneralizedTransferMatrix_transposes unit_defaults shear
                None None (Some 3%positive) (Some 3%positive)
                (identity float64) (identity float64)
                (NdArray complex128 swap) (NdArray complex128 swap)
                (NdArray complex128 shear) (NdArray complex128 swapped_shear)
                2%positive 4%positive measurement_heap
                eq_refl eq_refl eq_refl eq_refl invertible_id invertible_swap
                eq_refl shear_between_identities eq_refl shear_under_swap
                Hd1 Hd2) as Hrun.
  cbn [entries identity] in Hrun. rewrite measurement_1, measurement_2 in Hrun.
  destruct Hrun as (H1 & H2 & H3).
  split; [exact H1 |]. split; [exact H2 |]. split; [exact Hdet |].
  eexists _, _. split; [exact (H3 Hdet) |]. split; [reflexivity |].
  cbn [entries]. unfold mat2_transpose, shear; cbn [m00 m01 m10 m11].
  intros H. apply C1_neq_C0. exact (f_equal m10 H).
Qed.

(** ** structure (the spec's [compose]) *)

Lemma hold_nil (h : heap) : hold h [] [].
Proof. constructor. Qed.

Lemma structure_loop_run (h : heap) (args : list loc) (ms : list ndarray) (mat : ndarray) :
  hold h args ms ->
  TransferMatrix.structure_loop args mat h
  = (Ok (fold_left (fun acc m => dot m acc) ms mat), h).
Proof.
  intros Hh. revert mat. induction Hh as [| l m args ms Hl _ IH]; intros mat; simpl.
  - reflexivity.
  - rewrite (bind_run _ _ _ _ _ (matrix_run _ _ _ Hl)). apply IH.
Qed.

Lemma fold_dot_entries (ms : list ndarray) (mat : ndarray) :
  entries (fold_left (fun acc m => dot m acc) ms mat)
  = fold_left (fun acc m => m × acc) (map entries ms) (entries mat).
Proof. revert mat. induction ms as [| m ms IH]; intros mat; simpl; [| rewrite IH]; reflexivity. Qed.

Lemma fold_dot_dtype (ms : list ndarray) (mat : ndarray) :
  dtype_of (fold_left (fun acc m => dot m acc) ms mat)
  = fold_left (fun acc t => promote_types t acc) (map dtype_of ms) (dtype_of mat).
Proof. revert mat. induction ms as [| m ms IH]; intros mat; simpl; [| rewrite IH]; reflexivity. Qed.

Lemma fold_left_chain (ms : list mat2) (acc : mat2) :
  fold_left (fun acc m => m × acc) ms acc = chain ms × acc.
Proof.
  revert acc. induction ms as [| m ms IH]; intros acc; simpl.
  - now rewrite mat2_mul_id_l.
  - now rewrite IH, mat2_mul_assoc.
Qed.

Lemma left_fold_chain (ms : list mat2) : left_fold ms = chain ms.
Proof. unfold left_fold. now rewrite fold_left_chain, mat2_mul_id_r. Qed.

Lemma structure_run (h : heap) (args : list loc) (ms : list ndarray) :
  hold h args ms ->
  TransferMatrix.structure args h
  = (Ok (fresh (dom h)),
     <[fresh (dom h) := fold_left (fun acc m => dot m acc) ms (identity complex64)]> h).
Proof.
  intros Hh. unfold TransferMatrix.structure.
  now rewrite (bind_run _ _ _ _ _ (structure_loop_run h args ms _ Hh)).
Qed.

(** C7.  [structure] on the instances [m_1, ..., m_k] returns a new
    instance whose matrix is [m_k * ... * m_1], the left fold from the
    identity; with no argument that is the identity matrix; and every
    instance that existed before the call, the arguments among them, still
    holds the matrix it held. *)
Theorem structure_composes (h : heap) (args : list loc) (ms : list ndarray) :
  hold h args ms ->
  exists (l : loc) (m : ndarray),
    TransferMatrix.structure args h = (Ok l, <[l := m]> h) /\
    h !! l = None /\
    entries m = left_fold (map entries ms) /\
    entries m = chain (map entries ms) /\
    (args = [] -> entries m = mat2_id) /\
    (forall (a : loc) (ma : ndarray), h !! a = Some ma -> <[l := m]> h !! a = Some ma).
Proof.
  intros Hh. eexists _, _. split; [apply (structure_run h args ms Hh) |].
  pose proof (fresh_unbound h) as Hfresh.
  split; [exact Hfresh |]. split; [apply fold_dot_entries |].
  split; [rewrite fold_dot_entries; apply left_fold_chain |]. split.
  - intros ->. inversion Hh; subst. reflexivity.
  - intros a ma Ha. rewrite lookup_insert_ne; [exact Ha |].
    intros <-. rewrite Hfresh in Ha. discriminate.
Qed.

Lemma structure_composes_witness :
  let h := measurement_heap in
  hold h [2%positive; 3%positive] [NdArray complex128 shear; NdArray complex128 swap] /\
  exists (l : loc) (m : ndarray),
    TransferMatrix.structure [2%positive; 3%positive] h = (Ok l, <[l := m]> h) /\
    h !! l = None /\
    entries m = left_fold [shear; swap] /\
    entries m = chain [shear; swap] /\
    ([2%positive; 3%positive] = [] -> entries m = mat2_id) /\
    (forall (a : loc) (ma : ndarray), h !! a = Some ma -> <[l := m]> h !! a = Some ma).
Proof.
  assert (Hh : hold measurement_heap [2%positive; 3%positive]
                 [NdArray complex128 shear; NdArray complex128 swap]).
  { repeat constructor. }
  split; [exact Hh |].
  exact (structure_composes measurement_heap [2%positive; 3%positive]
           [NdArray complex128 shear; NdArray complex128 swap] Hh).
Defined.

(** ** The constructors: layer, boundingLayer, propagationLayer *)

Lemma alloc3_hold (h : heap) (m1 m2 m3 : ndarray) :
  let '(h3, (l1, l2, l3)) := alloc3 h m1 m2 m3 in
  h ⊆ h3 /\ hold h3 [l1; l2; l3] [m1; m2; m3].
Proof.
  unfold alloc3. cbv zeta.
  set (l1 := fresh (dom h)). set (h1 := <[l1 := m1]> h).
  set (l2 := fresh (dom h1)). set (h2 := <[l2 := m2]> h1).
  set (l3 := fresh (dom h2)).
  pose proof (fresh_unbound h) as F1. pose proof (fresh_unbound h1) as F2.
  pose proof (fresh_unbound h2) as F3. fold l1 in F1. fold l2 in F2. fold l3 in F3.
  assert (H1 : h1 !! l1 = Some m1) by apply lookup_insert_eq.
  assert (H2 : h2 !! l2 = Some m2) by apply lookup_insert_eq.
  assert (S1 : h ⊆ h1) by now apply insert_subseteq.
  assert (S2 : h1 ⊆ h2) by now apply insert_subseteq.
  assert (S3 : h2 ⊆ <[l3 := m3]> h2) by now apply insert_subseteq.
  split; [now repeat (etransitivity; [eassumption |]) |].
  repeat constructor.
  - eapply lookup_weaken; [| exact S3]. eapply lookup_weaken; [exact H1 | exact S2].
  - eapply lookup_weaken; [exact H2 | exact S3].
  - apply lookup_insert_eq.
Qed.

Lemma layer_run (n : C) (d wavelength : R) (h : heap) :
  (2 * n)%C <> C0 -> wavelength <> 0 ->
  exists h3 : heap,
    h ⊆ h3 /\
    TransferMatrix.layer n d wavelength h
    = (Ok (fresh (dom h3)), <[fresh (dom h3) := layer_array n d wavelength]> h3).
Proof.
  intros Hn Hw. unfold TransferMatrix.layer.
  destruct (Ceq_dec (2 * n) C0) as [| _]; [contradiction |].
  destruct (Req_dec_T wavelength 0) as [| _]; [contradiction |].
  pose proof (alloc3_hold h (TransferMatrix.bottomBoundary n)
                (TransferMatrix.propagation n d wavelength)
                (TransferMatrix.topBoundary n)) as Hal.
  unfold alloc3 in Hal. cbv zeta in Hal. destruct Hal as [Hsub Hhold].
  eexists. split; [exact Hsub |].
  rewrite (bind_run _ _ _ _ _ (init_run _ _)).
  rewrite (bind_run _ _ _ _ _ (init_run _ _)).
  rewrite (bind_run _ _ _ _ _ (init_run _ _)).
  now rewrite (structure_run _ _ _ Hhold).
Qed.

Lemma boundingLayer_run (n1 n2 : C) (h : heap) :
  (2 * n2)%C <> C0 ->
  TransferMatrix.boundingLayer n1 n2 h
  = (Ok (fresh (dom h)), <[fresh (dom h) := TransferMatrix.leftBoundary n1 n2]> h).
Proof.
  intros Hn. unfold TransferMatrix.boundingLayer.
  now destruct (Ceq_dec (2 * n2) C0).
Qed.

Lemma propagationLayer_run (n : C) (d wavelength : R) (h : heap) :
  wavelength <> 0 ->
  TransferMatrix.propagationLayer n d wavelength h
  = (Ok (fresh (dom h)),
     <[fresh (dom h) := TransferMatrix.propagation n d wavelength]> h).
Proof.
  intros Hw. unfold TransferMatrix.propagationLayer.
  now destruct (Req_dec_T wavelength 0).
Qed.

Lemma made_inv (c : Py loc) (h h' : heap) (l : loc) (m m' : ndarray) :
  c h = (Ok l, <[l := m]> h') -> made c h m' -> m' = m.
Proof.
  intros Hc (l' & h'' & Hc' & Hl). rewrite Hc in Hc'. injection Hc' as <- <-.
  rewrite lookup_insert_eq in Hl. congruence.
Qed.

Lemma made_intro (c : Py loc) (h h' : heap) (l : loc) (m : ndarray) :
  c h = (Ok l, <[l := m]> h') -> made c h m.
Proof. intros Hc. exists l, (<[l := m]> h'). split; [exact Hc | apply lookup_insert_eq]. Qed.

Lemma made_raise (c : Py loc) (h h' : heap) (e : exn) (m : ndarray) :
  c h = (Raise e, h') -> ~ made c h m.
Proof. intros Hc (l & h'' & Hc' & _). rewrite Hc in Hc'. discriminate. Qed.

Lemma made_layer (n : C) (d wavelength : R) (h : heap) (m : ndarray) :
  made (TransferMatrix.layer n d wavelength) h m -> m = layer_array n d wavelength.
Proof.
  intros Hm.
  destruct (Ceq_dec (2 * n) C0) as [Hn | Hn].
  { exfalso. revert Hm. apply (made_raise _ h h ZeroDivisionError).
    unfold TransferMatrix.layer. now destruct (Ceq_dec (2 * n) C0). }
  destruct (Req_dec_T wavelength 0) as [Hw | Hw].
  { exfalso. revert Hm. apply (made_raise _ h h ZeroDivisionError).
    unfold TransferMatrix.layer. destruct (Ceq_dec (2 * n) C0); [reflexivity |].
    now destruct (Req_dec_T wavelength 0). }
  destruct (layer_run n d wavelength h Hn Hw) as (h3 & _ & Hrun).
  exact (made_inv _ _ _ _ _ _ Hrun Hm).
Qed.

Lemma made_boundingLayer (n1 n2 : C) (h : heap) (m : ndarray) :
  made (TransferMatrix.boundingLayer n1 n2) h m -> m = TransferMatrix.leftBoundary n1 n2.
Proof.
  intros Hm. destruct (Ceq_dec (2 * n2) C0) as [Hn | Hn].
  - exfalso. revert Hm. apply (made_raise _ h h ZeroDivisionError).
    unfold TransferMatrix.boundingLayer. now destruct (Ceq_dec (2 * n2) C0).
  - exact (made_inv _ _ _ _ _ _ (boundingLayer_run n1 n2 h Hn) Hm).
Qed.

Lemma made_propagationLayer (n : C) (d wavelength : R) (h : heap) (m : ndarray) :
  made (TransferMatrix.propagationLayer n d wavelength) h m ->
  m = TransferMatrix.propagation n d wavelength.
Proof.
  intros Hm. destruct (Req_dec_T wavelength 0) as [Hw | Hw].
  - exfalso. revert Hm. apply (made_raise _ h h ZeroDivisionError).
    unfold TransferMatrix.propagationLayer. now destruct (Req_dec_T wavelength 0).
  - exact (made_inv _ _ _ _ _ _ (propagationLayer_run n d wavelength h Hw) Hm).
Qed.

(** C9, as the code has it.  The matrices of [layer], [boundingLayer],
    [propagationLayer] and of [structure] without arguments hold
    single-precision complex entries ([numpy.complex64]); the matrix of
    [structure] on arguments has the element type NumPy's promotion gives
    from [complex64] and the element types of the arguments. *)
Theorem constructors_element_type :
  (forall n d wavelength h m,
     made (TransferMatrix.layer n d wavelength) h m ->
     single_precision_complex (dtype_of m)) /\
  (forall n1 n2 h m,
     made (TransferMatrix.boundingLayer n1 n2) h m ->
     single_precision_complex (dtype_of m)) /\
  (forall n d wavelength h m,
     made (TransferMatrix.propagationLayer n d wavelength) h m ->
     single_precision_complex (dtype_of m)) /\
  (forall h m,
     made (TransferMatrix.structure []) h m ->
     single_precision_complex (dtype_of m)) /\
  (forall h args ms m,
     hold h args ms ->
     made (TransferMatrix.structure args) h m ->
     dtype_of m = chain_dtype (map dtype_of ms)).
Proof.
  repeat split.
  - intros n d w h m Hm. now rewrite (made_layer _ _ _ _ _ Hm).
  - intros n1 n2 h m Hm. now rewrite (made_boundingLayer _ _ _ _ Hm).
  - intros n d w h m Hm. now rewrite (made_propagationLayer _ _ _ _ _ Hm).
  - intros h m Hm.
    now rewrite (made_inv _ _ _ _ _ _ (structure_run h [] [] (hold_nil h)) Hm).
  - intros h args ms m Hh Hm.
    rewrite (made_inv _ _ _ _ _ _ (structure_run h args ms Hh) Hm).
    apply fold_dot_dtype.
Qed.

Lemma made_matched_layer :
  made (TransferMatrix.layer C1 1 2) ∅ (layer_array C1 1 2).
Proof.
  assert (Hn : (2 * C1)%C <> C0).
  { apply Cmul_neq_0; [exact C2_neq_0 | exact C1_neq_C0]. }
  assert (Hw : (2 : R) <> 0) by lra.
  destruct (layer_run C1 1 2 ∅ Hn Hw) as (h3 & _ & Hrun).
  exact (made_intro _ _ _ _ _ Hrun).
Qed.

Lemma constructors_element_type_witness :
  made (TransferMatrix.layer C1 1 2) ∅ (layer_array C1 1 2) /\
  single_precision_complex (dtype_of (layer_array C1 1 2)).
Proof.
  split; [exact made_matched_layer |].
  exact (proj1 constructors_element_type C1 1 2 ∅ _ made_matched_layer).
Defined.

(** C9 fails as stated: the matrix of [layer(1, 1, 2)] is a
    [complex64] array, single and not double precision. *)
Lemma constructors_element_type_counterexample :
  exists m : ndarray,
    made (TransferMatrix.layer C1 1 2) ∅ m /\
    dtype_of m = complex64 /\
    ~ double_precision_complex (dtype_of m).
Proof.
  exists (layer_array C1 1 2). split; [exact made_matched_layer |].
  split; [reflexivity | discriminate].
Qed.

(** ** A layer matched to air *)

Lemma Cexp_neq_0 (z : C) : Cexp z <> C0.
Proof.
  destruct z as [x y]. unfold Cexp, C0, RtoC; simpl. intros H.
  injection H as Hc Hs. pose proof (exp_pos x) as Hx. pose proof (sin2_cos2 y) as Hy.
  unfold Rsqr in Hy.
  assert (cos y = 0) by nra. assert (sin y = 0) by nra. nra.
Qed.

Lemma phase_norm (d wavelength : R) : Cnorm2 (phase d wavelength) = 1.
Proof.
  unfold phase, Cexp, Cnorm2. cbv [Cmul Copp Ci RtoC Re Im fst snd].
  replace (- 0 * (2 * PI * d / wavelength) - - (1) * 0) with 0 by ring.
  rewrite exp_0.
  pose proof (sin2_cos2 (- 0 * 0 + - (1) * (2 * PI * d / wavelength))) as Hy.
  unfold Rsqr in Hy. nra.
Qed.

Lemma propagation_phase (d wavelength : R) :
  wavelength <> 0 ->
  Cexp (- Ci * C1 * RtoC d * 2 * RtoC PI / RtoC wavelength) = phase d wavelength.
Proof.
  intros Hw. unfold phase. f_equal.
  cbv [Cdiv Cinv Csub Cmul Cadd Copp Cnorm2 C0 C1 Ci RtoC Re Im fst snd].
  f_equal; field; lra.
Qed.

Lemma matched_boundaries :
  entries (TransferMatrix.bottomBoundary C1) = mat2_id /\
  entries (TransferMatrix.topBoundary C1) = mat2_id.
Proof.
  unfold TransferMatrix.bottomBoundary, TransferMatrix.topBoundary, array, mat2_id.
  cbn [entries].
  split; cbv [Cdiv Cinv Csub Cmul Cadd Copp Cnorm2 C0 C1 Ci RtoC Re Im fst snd];
    f_equal; f_equal; field.
Qed.

Lemma matched_layer_entries (d wavelength : R) :
  wavelength <> 0 ->
  entries (layer_array C1 d wavelength)
  = Mat2 (phase d wavelength) C0
         C0 (Cexp (Ci * C1 * RtoC d * 2 * RtoC PI / RtoC wavelength)).
Proof.
  intros Hw. destruct matched_boundaries as [Hb Ht].
  unfold layer_array, dot. cbn [entries identity]. rewrite Hb, Ht.
  rewrite !mat2_mul_id_l, mat2_mul_id_r.
  unfold TransferMatrix.propagation, array. cbn [entries].
  now rewrite propagation_phase.
Qed.

Lemma matched_layer_run (d wavelength : R) (h : heap) :
  wavelength <> 0 ->
  exists (l : loc) (h' : heap),
    TransferMatrix.layer C1 d wavelength h = (Ok l, h') /\
    solvePropagation l C1 h' = (Ok (C0, phase d wavelength), h').
Proof.
  intros Hw.
  assert (Hn : (2 * C1)%C <> C0).
  { apply Cmul_neq_0; [exact C2_neq_0 | exact C1_neq_C0]. }
  destruct (layer_run C1 d wavelength h Hn Hw) as (h3 & _ & Hrun).
  eexists _, _. split; [exact Hrun |].
  pose proof (Cexp_neq_0 (Ci * C1 * RtoC d * 2 * RtoC PI / RtoC wavelength)) as Hq.
  rewrite (solvePropagation_run _ _ (layer_array C1 d wavelength) C1);
    [| apply lookup_insert_eq | rewrite (matched_layer_entries d wavelength Hw); exact Hq].
  unfold propagation_solution. rewrite (matched_layer_entries d wavelength Hw).
  cbn [m00 m01 m10 m11]. do 2 f_equal. f_equal; field; exact Hq.
Qed.

(** C1, as the code has it.  For a thickness [d >= 0] and a wavelength
    [> 0], [solvePropagation] with unit incident field on
    [layer(1, d, wavelength)] yields reflectance 0 and the transmittance
    [exp(-i * 2 pi d / wavelength)], a number of modulus 1. *)
Theorem matched_layer_transmits (d wavelength : R) (h : heap) :
  0 <= d -> 0 < wavelength ->
  exists (l : loc) (h' : heap),
    TransferMatrix.layer C1 d wavelength h = (Ok l, h') /\
    solvePropagation l C1 h' = (Ok (C0, phase d wavelength), h') /\
    Cnorm2 (phase d wavelength) = 1.
Proof.
  intros _ Hw.
  destruct (matched_layer_run d wavelength h) as (l & h' & Hl & Hs); [lra |].
  exists l, h'. split; [exact Hl |]. split; [exact Hs | apply phase_norm].
Qed.

Lemma matched_layer_transmits_witness :
  (0 <= 1 /\ 0 < 2) /\
  exists (l : loc) (h' : heap),
    TransferMatrix.layer C1 1 2 ∅ = (Ok l, h') /\
    solvePropagation l C1 h' = (Ok (C0, phase 1 2), h') /\
    Cnorm2 (phase 1 2) = 1.
Proof.
  assert (H0 : 0 <= 1) by lra. assert (H2 : 0 < 2) by lra.
  split; [split; assumption |].
  exact (matched_layer_transmits 1 2 ∅ H0 H2).
Defined.

Lemma half_wave_phase : phase 1 2 = RtoC (- 1).
Proof.
  unfold phase, Cexp. cbv [Cmul Copp Ci RtoC Re Im fst snd].
  replace (- 0 * (2 * PI * 1 / 2) - - (1) * 0) with 0 by ring.
  replace (- 0 * 0 + - (1) * (2 * PI * 1 / 2)) with (- PI) by field.
  rewrite exp_0, cos_neg, sin_neg, cos_PI, sin_PI. f_equal; ring.
Qed.

(** C1 fails as stated: at [d = 1], [wavelength = 2] (half a wave) the
    transmittance is [-1], at distance 2 from 1. *)
Lemma matched_layer_counterexample :
  exists (l : loc) (h' : heap),
    TransferMatrix.layer C1 1 2 ∅ = (Ok l, h') /\
    solvePropagation l C1 h' = (Ok (C0, RtoC (- 1)), h') /\
    forall eps : R, 0 <= eps < 2 -> ~ close eps (RtoC (- 1)) C1.
Proof.
  destruct (matched_layer_run 1 2 ∅) as (l & h' & Hl & Hs); [lra |].
  rewrite half_wave_phase in Hs.
  exists l, h'. split; [exact Hl |]. split; [exact Hs |].
  intros eps Heps. unfold close.
  cbv [Cnorm2 Csub Cadd Copp C1 RtoC Re Im fst snd]. nra.
Qed.

(** ** The bounding matrices are never written *)

Lemma allocates_only_lookup {A} (c : Py A) (h : heap) (l : loc) (m : ndarray) :
  allocates_only c -> h !! l = Some m -> final c h !! l = Some m.
Proof. intros Hc Hl. eapply lookup_weaken; [exact Hl | apply Hc]. Qed.

Lemma allocates_only_run_call (D : defaults) (c : call) : allocates_only (run_call D c).
Proof.
  destruct c; simpl.
  - apply allocates_only_reciprocal.
  - apply allocates_only_legacy.
  - apply allocates_only_generalized.
Qed.

Lemma run_calls_extends (D : defaults) (cs : list call) (h : heap) :
  h ⊆ run_calls D cs h.
Proof.
  revert h. induction cs as [| c cs IH]; intros h; simpl; [reflexivity |].
  etransitivity; [apply (allocates_only_run_call D c h) | apply IH].
Qed.

Lemma defaults_identity_weaken (D : defaults) (h h' : heap) :
  h ⊆ h' -> defaults_identity D h -> defaults_identity D h'.
Proof.
  intros Hsub Hid. unfold defaults_identity in *.
  eapply Forall_impl; [exact Hid |].
  intros l Hl. eapply lookup_weaken; [exact Hl | exact Hsub].
Qed.

Lemma init_extends (m : ndarray) (h : heap) :
  exists (l : loc) (h' : heap),
    TransferMatrix.init m h = (Ok l, h') /\ h ⊆ h' /\ h' !! l = Some m /\ h !! l = None.
Proof.
  exists (fresh (dom h)), (<[fresh (dom h) := m]> h).
  pose proof (fresh_unbound h) as Hf.
  split; [reflexivity |]. split; [now apply insert_subseteq |].
  split; [apply lookup_insert_eq | exact Hf].
Qed.

(** Importing the module creates the eight default instances, each
    holding the identity. *)
Lemma import_module_run (h : heap) :
  exists (D : defaults) (h' : heap),
    import_module h = (Ok D, h') /\ h ⊆ h' /\ defaults_identity D h'.
Proof.
  unfold import_module.
  destruct (init_extends (identity float64) h) as (l1 & h1 & E1 & S1 & L1 & _).
  destruct (init_extends (identity float64) h1) as (l2 & h2 & E2 & S2 & L2 & _).
  destruct (init_extends (identity float64) h2) as (l3 & h3 & E3 & S3 & L3 & _).
  destruct (init_extends (identity float64) h3) as (l4 & h4 & E4 & S4 & L4 & _).
  destruct (init_extends (identity float64) h4) as (l5 & h5 & E5 & S5 & L5 & _).
  destruct (init_extends (identity float64) h5) as (l6 & h6 & E6 & S6 & L6 & _).
  destruct (init_extends (identity float64) h6) as (l7 & h7 & E7 & S7 & L7 & _).
  destruct (init_extends (identity float64) h7) as (l8 & h8 & E8 & S8 & L8 & _).
  exists (Defaults l1 l2 l3 l4 l5 l6 l7 l8), h8.
  rewrite (bind_run _ _ _ _ _ E1), (bind_run _ _ _ _ _ E2), (bind_run _ _ _ _ _ E3),
    (bind_run _ _ _ _ _ E4), (bind_run _ _ _ _ _ E5), (bind_run _ _ _ _ _ E6),
    (bind_run _ _ _ _ _ E7), (bind_run _ _ _ _ _ E8).
  split; [reflexivity |].
  assert (T7 : h7 ⊆ h8) by exact S8.
  assert (T6 : h6 ⊆ h8) by (etransitivity; eassumption).
  assert (T5 : h5 ⊆ h8) by (etransitivity; eassumption).
  assert (T4 : h4 ⊆ h8) by (etransitivity; eassumption).
  assert (T3 : h3 ⊆ h8) by (etransitivity; eassumption).
  assert (T2 : h2 ⊆ h8) by (etransitivity; eassumption).
  assert (T1 : h1 ⊆ h8) by (etransitivity; eassumption).
  split; [etransitivity; eassumption |].
  unfold defaults_identity, default_locs; simpl.
  repeat constructor; eauto using lookup_weaken.
Qed.

(** By contrast [invert] writes into its receiver: the solvers could not
    use it on their arguments without changing them. *)
Lemma invert_writes_receiver (self : loc) (m : ndarray) (h : heap) :
  h !! self = Some m -> invertible (entries m) ->
  TransferMatrix.invert self h = (Ok tt, <[self := inv_array m]> h).
Proof.
  intros Hm Hinv. unfold TransferMatrix.invert.
  rewrite (bind_run _ _ _ _ _ (matrix_run _ _ _ Hm)).
  erewrite bind_run; [| unfold lift; rewrite (linalg_inv_run _ Hinv); reflexivity].
  reflexivity.
Qed.

(** C10.  A call of [findReciprocalTransferMatrix],
    [findReciprocalTransferMatrixLegacy] or [findGeneralizedTransferMatrix]
    leaves every instance that existed before it with the matrix it had,
    whether the call returns or raises: its bounding-matrix arguments and
    the shared default instances among them.  So after any sequence of such
    calls the default instances still hold the identity. *)
Theorem solvers_keep_bounding_matrices (D : defaults) :
  (forall t r bottomMat topMat (h : heap) (l : loc) (m : ndarray),
     h !! l = Some m ->
     final (findReciprocalTransferMatrix D t r bottomMat topMat) h !! l = Some m) /\
  (forall t r bottomMat topMat (h : heap) (l : loc) (m : ndarray),
     h !! l = Some m ->
     final (findReciprocalTransferMatrixLegacy D t r bottomMat topMat) h !! l = Some m) /\
  (forall t1 r1 t2 r2 bottomMat1 topMat1 bottomMat2 topMat2
          (h : heap) (l : loc) (m : ndarray),
     h !! l = Some m ->
     final (findGeneralizedTransferMatrix D t1 r1 t2 r2
              bottomMat1 topMat1 bottomMat2 topMat2) h !! l = Some m) /\
  (forall (cs : list call) (h : heap),
     defaults_identity D h -> defaults_identity D (run_calls D cs h)).
Proof.
  split; [| split; [| split]].
  - intros. now apply allocates_only_lookup; [apply allocates_only_reciprocal |].
  - intros. now apply allocates_only_lookup; [apply allocates_only_legacy |].
  - intros. now apply allocates_only_lookup; [apply allocates_only_generalized |].
  - intros cs h. apply defaults_identity_weaken, run_calls_extends.
Qed.

(** An instance: after the import, a call of each solver with default
    bounding matrices (the second one raises, on a singular system). *)
Lemma solvers_keep_bounding_matrices_witness :
  exists (D : defaults) (h : heap),
    import_module ∅ = (Ok D, h) /\
    defaults_identity D h /\
    defaults_identity D
      (run_calls D [CallReciprocal C1 C0 None None;
                    CallLegacy C1 C1 None None;
                    CallGeneralized C1 C0 C1 C0 None None None None] h).
Proof.
  destruct (import_module_run ∅) as (D & h & Hrun & _ & Hid).
  exists D, h. split; [exact Hrun |]. split; [exact Hid |].
  exact (proj2 (proj2 (proj2 (solvers_keep_bounding_matrices D))) _ h Hid).
Defined.

(** * Further properties of the module *)

(** ** The exponential *)

Lemma Cexp_add (z w : C) : Cexp (z + w) = (Cexp z * Cexp w)%C.
Proof.
  destruct z as [a b], w as [c d]. unfold Cexp, Cadd, Cmul; simpl.
  rewrite exp_plus, cos_plus, sin_plus. f_equal; ring.
Qed.

Lemma Cexp_0 : Cexp C0 = C1.
Proof.
  unfold Cexp, C0, C1, RtoC; simpl. rewrite exp_0, cos_0, sin_0. f_equal; ring.
Qed.

Lemma Cexp_opp (z : C) : (Cexp z * Cexp (- z))%C = C1.
Proof.
  rewrite <- Cexp_add. replace (z + - z)%C with C0 by ring. apply Cexp_0.
Qed.

Lemma RtoC_add (x y : R) : RtoC (x + y) = (RtoC x + RtoC y)%C.
Proof. C_components. f_equal; ring. Qed.

Lemma RtoC_neq_0' (x : R) : RtoC x = C0 -> x = 0.
Proof. apply RtoC_inj. Qed.

(** ** boundingLayer *)

Lemma C2_eq : RtoC 2 = (C1 + C1)%C.
Proof. cbv [Cadd C1 RtoC Re Im fst snd]. f_equal; ring. Qed.

(** Closes the side conditions [field] leaves on complex goals: terms
    assumed not to be zero, and numerals. *)
Ltac C_nonzero :=
  repeat match goal with |- _ /\ _ => split end;
  first [ assumption
        | exact C1_neq_C0
        | let H := fresh in
          intros H; cbv [C0 C1 RtoC Cadd Re Im fst snd] in H; injection H; lra ].

(** [field] on a complex goal in which the numeral 2 occurs. *)
Ltac C_field := rewrite ?C2_eq; field; C_nonzero.

Lemma double_neq_0 (n : C) : (2 * n)%C <> C0 -> n <> C0.
Proof. intros Hn ->. apply Hn. ring. Qed.

Section BoundingLayer.

Lemma leftBoundary_same (n : C) :
  (2 * n)%C <> C0 -> entries (TransferMatrix.leftBoundary n n) = mat2_id.
Proof.
  intros Hn. apply double_neq_0 in Hn.
  unfold TransferMatrix.leftBoundary, array, mat2_id. cbn [entries].
  f_equal; C_field.
Qed.

Lemma leftBoundary_chain (n1 n2 n3 : C) :
  (2 * n2)%C <> C0 -> (2 * n3)%C <> C0 ->
  entries (TransferMatrix.leftBoundary n1 n2) × entries (TransferMatrix.leftBoundary n2 n3)
  = entries (TransferMatrix.leftBoundary n1 n3).
Proof.
  intros Hn2 Hn3. apply double_neq_0 in Hn2, Hn3.
  unfold TransferMatrix.leftBoundary, array, mat2_mul.
  cbn [entries m00 m01 m10 m11].
  f_equal; C_field.
Qed.

Lemma leftBoundary_commute (n1 n2 n3 n4 : C) :
  entries (TransferMatrix.leftBoundary n1 n2) × entries (TransferMatrix.leftBoundary n3 n4)
  = entries (TransferMatrix.leftBoundary n3 n4) × entries (TransferMatrix.leftBoundary n1 n2).
Proof.
  unfold TransferMatrix.leftBoundary, array, mat2_mul.
  cbn [entries m00 m01 m10 m11]. f_equal; ring.
Qed.

End BoundingLayer.

Lemma made_boundingLayer_guard (n1 n2 : C) (h : heap) (m : ndarray) :
  made (TransferMatrix.boundingLayer n1 n2) h m -> (2 * n2)%C <> C0.
Proof.
  intros Hm Hn. revert Hm. apply (made_raise _ h h ZeroDivisionError).
  unfold TransferMatrix.boundingLayer. now destruct (Ceq_dec (2 * n2) C0).
Qed.

Lemma made_bounding_sample (n1 n2 : C) (h : heap) :
  (2 * n2)%C <> C0 ->
  made (TransferMatrix.boundingLayer n1 n2) h (TransferMatrix.leftBoundary n1 n2).
Proof. intros Hn. exact (made_intro _ _ _ _ _ (boundingLayer_run n1 n2 h Hn)). Qed.

Lemma double_neq_0_intro (n : C) : n <> C0 -> (2 * n)%C <> C0.
Proof. intros Hn. apply Cmul_neq_0; [exact C2_neq_0 | exact Hn]. Qed.

(** X1.  Whenever [boundingLayer(n, n)] returns, between two media of
    the same index, its matrix is the identity. *)
Theorem boundingLayer_same_index (n : C) (h : heap) (m : ndarray) :
  made (TransferMatrix.boundingLayer n n) h m -> entries m = mat2_id.
Proof.
  intros Hm. pose proof (made_boundingLayer_guard _ _ _ _ Hm) as Hn.
  rewrite (made_boundingLayer _ _ _ _ Hm). now apply leftBoundary_same.
Qed.

Lemma boundingLayer_same_index_witness :
  made (TransferMatrix.boundingLayer (RtoC 3) (RtoC 3)) ∅
       (TransferMatrix.leftBoundary (RtoC 3) (RtoC 3)) /\
  entries (TransferMatrix.leftBoundary (RtoC 3) (RtoC 3)) = mat2_id.
Proof.
  assert (Hm : made (TransferMatrix.boundingLayer (RtoC 3) (RtoC 3)) ∅
                 (TransferMatrix.leftBoundary (RtoC 3) (RtoC 3))).
  { apply made_bounding_sample, double_neq_0_intro, RtoC_neq_0. lra. }
  split; [exact Hm |].
  exact (boundingLayer_same_index (RtoC 3) ∅ _ Hm).
Defined.



(** ** propagationLayer *)

Section PropagationLayer.

Variables (n : C) (wavelength : R).
Hypothesis Hw : wavelength <> 0.

Let HwC : RtoC wavelength <> C0 := RtoC_neq_0 wavelength Hw.

Lemma propagation_thickness_add (d1 d2 : R) :
  entries (TransferMatrix.propagation n (d1 + d2) wavelength)
  = entries (TransferMatrix.propagation n d1 wavelength)
    × entries (TransferMatrix.propagation n d2 wavelength).
Proof.
  unfold TransferMatrix.propagation, array, mat2_mul. cbn [entries m00 m01 m10 m11].
  rewrite RtoC_add.
  replace (- Ci * n * (RtoC d1 + RtoC d2) * 2 * RtoC PI / RtoC wavelength)%C
    with (- Ci * n * RtoC d1 * 2 * RtoC PI / RtoC wavelength
          + - Ci * n * RtoC d2 * 2 * RtoC PI / RtoC wavelength)%C
    by (field; exact HwC).
  replace (Ci * n * (RtoC d1 + RtoC d2) * 2 * RtoC PI / RtoC wavelength)%C
    with (Ci * n * RtoC d1 * 2 * RtoC PI / RtoC wavelength
          + Ci * n * RtoC d2 * 2 * RtoC PI / RtoC wavelength)%C
    by (field; exact HwC).
  rewrite !Cexp_add. f_equal; ring.
Qed.

Lemma propagation_zero_thickness :
  entries (TransferMatrix.propagation n 0 wavelength) = mat2_id.
Proof.
  unfold TransferMatrix.propagation, array, mat2_id. cbn [entries].
  change (RtoC 0) with C0.
  replace (- Ci * n * C0 * 2 * RtoC PI / RtoC wavelength)%C with C0
    by (field; exact HwC).
  replace (Ci * n * C0 * 2 * RtoC PI / RtoC wavelength)%C with C0
    by (field; exact HwC).
  now rewrite Cexp_0.
Qed.

Lemma propagation_det (d : R) :
  mat2_det (entries (TransferMatrix.propagation n d wavelength)) = C1.
Proof.
  unfold TransferMatrix.propagation, array, mat2_det. cbn [entries m00 m01 m10 m11].
  replace (- Ci * n * RtoC d * 2 * RtoC PI / RtoC wavelength)%C
    with (- (Ci * n * RtoC d * 2 * RtoC PI / RtoC wavelength))%C
    by (field; exact HwC).
  set (z := (Ci * n * RtoC d * 2 * RtoC PI / RtoC wavelength)%C).
  pose proof (Cexp_opp z) as Hz.
  replace (Cexp (- z) * Cexp z - C0 * C0)%C with (Cexp z * Cexp (- z))%C by ring.
  exact Hz.
Qed.

End PropagationLayer.

Lemma made_propagationLayer_guard (n : C) (d wavelength : R) (h : heap) (m : ndarray) :
  made (TransferMatrix.propagationLayer n d wavelength) h m -> wavelength <> 0.
Proof.
  intros Hm Hw. revert Hm. apply (made_raise _ h h ZeroDivisionError).
  unfold TransferMatrix.propagationLayer. now destruct (Req_dec_T wavelength 0).
Qed.

Lemma made_propagation_sample (n : C) (d wavelength : R) (h : heap) :
  wavelength <> 0 ->
  made (TransferMatrix.propagationLayer n d wavelength) h
       (TransferMatrix.propagation n d wavelength).
Proof. intros Hw. exact (made_intro _ _ _ _ _ (propagationLayer_run n d wavelength h Hw)). Qed.



(** X4.  Whenever [propagationLayer(n, 0, w)] returns, for thickness 0,
    its matrix is the identity. *)
Theorem propagationLayer_zero_thickness (n : C) (wavelength : R) (h : heap) (m : ndarray) :
  made (TransferMatrix.propagationLayer n 0 wavelength) h m -> entries m = mat2_id.
Proof.
  intros H. pose proof (made_propagationLayer_guard _ _ _ _ _ H) as Hw.
  rewrite (made_propagationLayer _ _ _ _ _ H). now apply propagation_zero_thickness.
Qed.

Lemma propagationLayer_zero_thickness_witness :
  made (TransferMatrix.propagationLayer (RtoC 2) 0 5) ∅
       (TransferMatrix.propagation (RtoC 2) 0 5) /\
  entries (TransferMatrix.propagation (RtoC 2) 0 5) = mat2_id.
Proof.
  assert (Hw : (5 : R) <> 0) by lra.
  pose proof (made_propagation_sample (RtoC 2) 0 5 ∅ Hw) as H.
  split; [exact H |].
  exact (propagationLayer_zero_thickness (RtoC 2) 5 ∅ _ H).
Defined.

(** ** layer *)

Lemma sandwich_run (m1 m2 m3 : ndarray) (h : heap) :
  exists h3 : heap,
    h ⊆ h3 /\
    bind (TransferMatrix.init m1) (fun b =>
    bind (TransferMatrix.init m2) (fun p =>
    bind (TransferMatrix.init m3) (fun t =>
    TransferMatrix.structure [b; p; t]))) h
    = (Ok (fresh (dom h3)),
       <[fresh (dom h3) := dot m3 (dot m2 (dot m1 (identity complex64)))]> h3).
Proof.
  pose proof (alloc3_hold h m1 m2 m3) as Hal.
  unfold alloc3 in Hal. cbv zeta in Hal. destruct Hal as [Hsub Hhold].
  eexists. split; [exact Hsub |].
  rewrite (bind_run _ _ _ _ _ (init_run _ _)).
  rewrite (bind_run _ _ _ _ _ (init_run _ _)).
  rewrite (bind_run _ _ _ _ _ (init_run _ _)).
  now rewrite (structure_run _ _ _ Hhold).
Qed.

Lemma made_layer_guard (n : C) (d wavelength : R) (h : heap) (m : ndarray) :
  made (TransferMatrix.layer n d wavelength) h m ->
  (2 * n)%C <> C0 /\ wavelength <> 0.
Proof.
  intros Hm. split.
  - intros Hn. revert Hm. apply (made_raise _ h h ZeroDivisionError).
    unfold TransferMatrix.layer. now destruct (Ceq_dec (2 * n) C0).
  - intros Hw. revert Hm. apply (made_raise _ h h ZeroDivisionError).
    unfold TransferMatrix.layer. destruct (Ceq_dec (2 * n) C0); [reflexivity |].
    now destruct (Req_dec_T wavelength 0).
Qed.

Lemma made_layer_sample (n : C) (d wavelength : R) (h : heap) :
  (2 * n)%C <> C0 -> wavelength <> 0 ->
  made (TransferMatrix.layer n d wavelength) h (layer_array n d wavelength).
Proof.
  intros Hn Hw. destruct (layer_run n d wavelength h Hn Hw) as (h3 & _ & Hrun).
  exact (made_intro _ _ _ _ _ Hrun).
Qed.

Lemma topBoundary_leftBoundary (n : C) :
  entries (TransferMatrix.topBoundary n) = entries (TransferMatrix.leftBoundary n C1).
Proof.
  unfold TransferMatrix.topBoundary, TransferMatrix.leftBoundary, array.
  cbn [entries]. f_equal; C_field.
Qed.

Lemma bottomBoundary_leftBoundary (n : C) :
  TransferMatrix.bottomBoundary n = TransferMatrix.leftBoundary C1 n.
Proof. reflexivity. Qed.

Lemma layer_array_entries (n : C) (d wavelength : R) :
  entries (layer_array n d wavelength)
  = entries (TransferMatrix.topBoundary n)
    × entries (TransferMatrix.propagation n d wavelength)
    × entries (TransferMatrix.bottomBoundary n).
Proof.
  unfold layer_array, dot. cbn [entries identity].
  now rewrite mat2_mul_id_r, mat2_mul_assoc.
Qed.

Lemma layer_from_parts_run (n : C) (d wavelength : R) (h : heap) :
  (2 * n)%C <> C0 -> wavelength <> 0 ->
  exists h3 : heap,
    h ⊆ h3 /\
    layer_from_parts n d wavelength h
    = (Ok (fresh (dom h3)),
       <[fresh (dom h3) :=
           dot (TransferMatrix.leftBoundary n C1)
             (dot (TransferMatrix.propagation n d wavelength)
                (dot (TransferMatrix.leftBoundary C1 n) (identity complex64)))]> h3).
Proof.
  intros Hn Hw.
  assert (H1 : (2 * C1)%C <> C0) by (apply double_neq_0_intro, C1_neq_C0).
  unfold layer_from_parts, TransferMatrix.boundingLayer, TransferMatrix.propagationLayer.
  destruct (Ceq_dec (2 * n) C0) as [| _]; [contradiction |].
  destruct (Req_dec_T wavelength 0) as [| _]; [contradiction |].
  destruct (Ceq_dec (2 * C1) C0) as [| _]; [contradiction |].
  apply sandwich_run.
Qed.

(** X5.  Whenever [layer(n, d, w)] returns, so does
    [structure(boundingLayer(1, n), propagationLayer(n, d, w),
    boundingLayer(n, 1))], with a matrix of the same entries and element
    type: [layer] is the sandwich of the sibling constructors. *)
Theorem layer_is_sandwich (n : C) (d wavelength : R) (h : heap) (m : ndarray) :
  made (TransferMatrix.layer n d wavelength) h m ->
  exists m' : ndarray,
    made (layer_from_parts n d wavelength) h m' /\
    entries m' = entries m /\
    dtype_of m' = dtype_of m.
Proof.
  intros Hm. destruct (made_layer_guard _ _ _ _ _ Hm) as [Hn Hw].
  rewrite (made_layer _ _ _ _ _ Hm).
  destruct (layer_from_parts_run n d wavelength h Hn Hw) as (h3 & _ & Hrun).
  eexists. split; [exact (made_intro _ _ _ _ _ Hrun) |]. split; [| reflexivity].
  unfold layer_array, dot. cbn [entries identity].
  now rewrite topBoundary_leftBoundary.
Qed.

Lemma layer_is_sandwich_witness :
  made (TransferMatrix.layer (RtoC 3) 1 5) ∅ (layer_array (RtoC 3) 1 5) /\
  exists m' : ndarray,
    made (layer_from_parts (RtoC 3) 1 5) ∅ m' /\
    entries m' = entries (layer_array (RtoC 3) 1 5) /\
    dtype_of m' = dtype_of (layer_array (RtoC 3) 1 5).
Proof.
  assert (Hn : (2 * RtoC 3)%C <> C0) by (apply double_neq_0_intro, RtoC_neq_0; lra).
  assert (Hw : (5 : R) <> 0) by lra.
  pose proof (made_layer_sample (RtoC 3) 1 5 ∅ Hn Hw) as Hm.
  split; [exact Hm |].
  exact (layer_is_sandwich (RtoC 3) 1 5 ∅ _ Hm).
Defined.

Lemma topBoundary_det (n : C) : mat2_det (entries (TransferMatrix.topBoundary n)) = n.
Proof.
  unfold TransferMatrix.topBoundary, array, mat2_det. cbn [entries m00 m01 m10 m11].
  C_field.
Qed.

Lemma bottomBoundary_det (n : C) :
  n <> C0 -> mat2_det (entries (TransferMatrix.bottomBoundary n)) = (/ n)%C.
Proof.
  intros Hn. unfold TransferMatrix.bottomBoundary, array, mat2_det.
  cbn [entries m00 m01 m10 m11]. C_field.
Qed.

Lemma layer_array_det (n : C) (d wavelength : R) :
  (2 * n)%C <> C0 -> wavelength <> 0 ->
  mat2_det (entries (layer_array n d wavelength)) = C1.
Proof.
  intros Hn Hw. apply double_neq_0 in Hn.
  rewrite layer_array_entries, !mat2_det_mul, topBoundary_det,
    (propagation_det n wavelength Hw), bottomBoundary_det by exact Hn.
  field. exact Hn.
Qed.

(** ** The mutators: invert, appendLeft, appendRight *)

Section Mutators.

Implicit Types (h : heap) (self other : loc) (m : ndarray).

Lemma appendLeft_run self other ms mo h :
  h !! self = Some ms -> h !! other = Some mo ->
  TransferMatrix.appendLeft self other h = (Ok tt, <[self := dot mo ms]> h).
Proof.
  intros Hs Ho. unfold TransferMatrix.appendLeft.
  rewrite (bind_run _ _ _ _ _ (matrix_run _ _ _ Ho)).
  now rewrite (bind_run _ _ _ _ _ (matrix_run _ _ _ Hs)).
Qed.

Lemma appendRight_run self other ms mo h :
  h !! self = Some ms -> h !! other = Some mo ->
  TransferMatrix.appendRight self other h = (Ok tt, <[self := dot ms mo]> h).
Proof.
  intros Hs Ho. unfold TransferMatrix.appendRight.
  rewrite (bind_run _ _ _ _ _ (matrix_run _ _ _ Hs)).
  now rewrite (bind_run _ _ _ _ _ (matrix_run _ _ _ Ho)).
Qed.

Lemma mat2_inv_det (a : mat2) :
  mat2_det a <> C0 -> mat2_det (mat2_inv a) = (/ mat2_det a)%C.
Proof.
  intros Hd. destruct a as [a b c d].
  unfold mat2_inv, mat2_scale, mat2_adj, mat2_det in *; simpl in *.
  field. exact Hd.
Qed.

Lemma Cinv_neq_0 (z : C) : z <> C0 -> (/ z)%C <> C0.
Proof.
  intros Hz H0. apply C1_neq_C0.
  replace C1 with (/ z * z)%C by (field; exact Hz). rewrite H0. ring.
Qed.

Lemma mat2_inv_invertible (a : mat2) : invertible a -> invertible (mat2_inv a).
Proof.
  rewrite !invertible_det. intros Hd. rewrite mat2_inv_det by exact Hd.
  now apply Cinv_neq_0.
Qed.

Lemma mat2_inv_invol (a : mat2) : invertible a -> mat2_inv (mat2_inv a) = a.
Proof.
  intros Ha. pose proof Ha as Hd. rewrite invertible_det in Hd.
  symmetry. apply invertible_inverse; [now apply mat2_inv_l | now apply mat2_inv_r].
Qed.

Lemma linalg_type_idem (t : dtype) : linalg_type (linalg_type t) = linalg_type t.
Proof. now destruct t. Qed.

End Mutators.

(** X8.  Inverting an instance twice restores the entries of its
    matrix (the element type is the one [numpy.linalg] computes in); no
    other instance changes. *)
Theorem invert_twice (self : loc) (m : ndarray) (h : heap) :
  h !! self = Some m -> invertible (entries m) ->
  exists m' : ndarray,
    bind (TransferMatrix.invert self) (fun _ => TransferMatrix.invert self) h
    = (Ok tt, <[self := m']> h) /\
    entries m' = entries m /\
    dtype_of m' = linalg_type (dtype_of m).
Proof.
  intros Hm Hinv. exists (inv_array (inv_array m)).
  rewrite (bind_run _ _ _ _ _ (invert_writes_receiver self m h Hm Hinv)).
  rewrite (invert_writes_receiver self (inv_array m) _ (lookup_insert_eq _ _ _)
             (mat2_inv_invertible _ Hinv)).
  rewrite insert_insert_eq. split; [reflexivity |].
  split; [now apply mat2_inv_invol | apply linalg_type_idem].
Qed.

Lemma invert_twice_witness :
  measurement_heap !! 2%positive = Some (NdArray complex128 shear) /\
  invertible shear /\
  exists m' : ndarray,
    bind (TransferMatrix.invert 2%positive) (fun _ => TransferMatrix.invert 2%positive)
      measurement_heap
    = (Ok tt, <[2%positive := m']> measurement_heap) /\
    entries m' = shear /\
    dtype_of m' = linalg_type complex128.
Proof.
  assert (Hinv : invertible shear).
  { apply invertible_det. unfold mat2_det, shear; cbn [m00 m01 m10 m11].
    intros H. apply C1_neq_C0. rewrite <- H. ring. }
  split; [reflexivity |]. split; [exact Hinv |].
  exact (invert_twice 2%positive (NdArray complex128 shear) measurement_heap
           eq_refl Hinv).
Defined.

(** ** Composition: appendLeft, appendRight and structure *)

Lemma promote_types_assoc (a b c : dtype) :
  promote_types a (promote_types b c) = promote_types (promote_types a b) c.
Proof. destruct a, b, c; reflexivity. Qed.

Lemma promote_types_comm (a b : dtype) : promote_types a b = promote_types b a.
Proof. destruct a, b; reflexivity. Qed.

Lemma promote_types_idem (a : dtype) : promote_types a a = a.
Proof. destruct a; reflexivity. Qed.

Lemma dot_assoc (a b c : ndarray) : dot a (dot b c) = dot (dot a b) c.
Proof.
  unfold dot. cbn [entries dtype_of]. now rewrite promote_types_assoc, mat2_mul_assoc.
Qed.



Lemma appendLeft_all_run (acc : loc) (args : list loc) (ms : list ndarray)
    (cur : ndarray) (h : heap) :
  h !! acc = None -> hold h args ms ->
  appendLeft_all acc args (<[acc := cur]> h)
  = (Ok tt, <[acc := fold_left (fun a m => dot m a) ms cur]> h).
Proof.
  intros Hacc Hh. revert cur. induction Hh as [| l m args ms Hl _ IH]; intros cur; simpl.
  - reflexivity.
  - assert (Hne : acc <> l) by (intros ->; congruence).
    rewrite (bind_run _ _ _ _ _
               (appendLeft_run acc l cur m _ (lookup_insert_eq _ _ _)
                  (eq_trans (lookup_insert_ne _ _ _ _ Hne) Hl))).
    rewrite insert_insert_eq. apply IH.
Qed.

(** X12.  [structure] is the loop of [appendLeft]: on instances that
    exist, starting from a fresh identity instance and calling
    [appendLeft] with each argument in order gives the same matrix, and
    leaves the same store, as [structure] on the arguments. *)
Theorem structure_is_appendLeft_loop (args : list loc) (ms : list ndarray) (h : heap) :
  hold h args ms ->
  compose_by_appendLeft args h = structure_matrix args h.
Proof.
  intros Hh. unfold compose_by_appendLeft, structure_matrix.
  rewrite (bind_run _ _ _ _ _ (init_run _ _)).
  rewrite (bind_run _ _ _ _ _
             (appendLeft_all_run _ args ms _ h (fresh_unbound h) Hh)).
  rewrite (bind_run _ _ _ _ _ (structure_run h args ms Hh)).
  now rewrite !(matrix_run _ _ _ (lookup_insert_eq _ _ _)).
Qed.

Lemma structure_is_appendLeft_loop_witness :
  hold measurement_heap [2%positive; 3%positive; 2%positive]
    [NdArray complex128 shear; NdArray complex128 swap; NdArray complex128 shear] /\
  compose_by_appendLeft [2%positive; 3%positive; 2%positive] measurement_heap
  = structure_matrix [2%positive; 3%positive; 2%positive] measurement_heap.
Proof.
  assert (Hh : hold measurement_heap [2%positive; 3%positive; 2%positive]
                 [NdArray complex128 shear; NdArray complex128 swap;
                  NdArray complex128 shear]).
  { repeat constructor. }
  split; [exact Hh |].
  exact (structure_is_appendLeft_loop _ _ measurement_heap Hh).
Defined.

Lemma fold_dot_app (xs ys : list ndarray) (mat : ndarray) :
  fold_left (fun a m => dot m a) (xs ++ ys) mat
  = fold_left (fun a m => dot m a) ys (fold_left (fun a m => dot m a) xs mat).
Proof. apply fold_left_app. Qed.

Lemma fold_dot_shift (ys : list ndarray) (x : ndarray) :
  dot (fold_left (fun a m => dot m a) ys (identity complex64)) x
  = fold_left (fun a m => dot m a) ys (dot (identity complex64) x).
Proof.
  generalize (identity complex64) as e. induction ys as [| y ys IH]; intros e; simpl.
  - reflexivity.
  - now rewrite IH, dot_assoc.
Qed.

Lemma dot_identity_fold (xs : list ndarray) :
  let F := fold_left (fun a m => dot m a) xs (identity complex64) in
  dot (identity complex64) F = F /\ dot F (identity complex64) = F.
Proof.
  assert (H : forall e : ndarray,
             dot (identity complex64) e = e /\ dot e (identity complex64) = e ->
             dot (identity complex64) (fold_left (fun a m => dot m a) xs e)
             = fold_left (fun a m => dot m a) xs e /\
             dot (fold_left (fun a m => dot m a) xs e) (identity complex64)
             = fold_left (fun a m => dot m a) xs e).
  { induction xs as [| x xs IH]; intros e He; simpl; [exact He |].
    apply IH. destruct He as [Hl Hr]. split.
    - unfold dot in *. cbn [entries dtype_of identity] in *.
      rewrite mat2_mul_id_l. f_equal.
      apply (f_equal dtype_of) in Hl. cbn [dtype_of] in Hl.
      rewrite (promote_types_comm (dtype_of x)), promote_types_assoc, Hl.
      reflexivity.
    - now rewrite <- dot_assoc, Hr. }
  apply H. unfold dot, identity. cbn [entries dtype_of].
  now rewrite mat2_mul_id_l.
Qed.

Lemma hold_weaken (h h' : heap) (args : list loc) (ms : list ndarray) :
  h ⊆ h' -> hold h args ms -> hold h' args ms.
Proof.
  intros Hsub Hh. induction Hh; constructor; [| assumption].
  eapply lookup_weaken; eassumption.
Qed.



(** ** solvePropagation, further *)

Lemma solvePropagation_success (tm : loc) (f : C) (h h' : heap) (rt : C * C) :
  solvePropagation tm f h = (Ok rt, h') ->
  exists T : ndarray, h !! tm = Some T /\ m11 (entries T) <> C0.
Proof.
  intros Hrun. destruct (h !! tm) as [T |] eqn:Htm.
  - exists T. split; [reflexivity |]. intros H0.
    rewrite (solvePropagation_singular h tm T f Htm H0) in Hrun. discriminate.
  - unfold solvePropagation, bind, TransferMatrix.matrix in Hrun.
    rewrite Htm in Hrun. discriminate.
Qed.

(** X14.  The result of [solvePropagation] is linear in the incident
    field: if it returns [(r, t)] for incident field 1, it returns
    [(f * r, f * t)] for incident field [f], and never changes the store. *)
Theorem solvePropagation_linear (tm : loc) (f r t : C) (h h' : heap) :
  solvePropagation tm C1 h = (Ok (r, t), h') ->
  h' = h /\ solvePropagation tm f h = (Ok ((f * r)%C, (f * t)%C), h).
Proof.
  intros Hrun. destruct (solvePropagation_success _ _ _ _ _ Hrun) as (T & Htm & Hd).
  rewrite (solvePropagation_run h tm T C1 Htm Hd) in Hrun.
  injection Hrun as <- <- <-. split; [reflexivity |].
  rewrite (solvePropagation_run h tm T f Htm Hd). unfold propagation_solution.
  do 2 f_equal. f_equal; field; exact Hd.
Qed.

Lemma solvePropagation_linear_witness :
  solvePropagation 2%positive C1 measurement_heap = (Ok (C0, C1), measurement_heap) /\
  solvePropagation 2%positive (RtoC 3) measurement_heap
  = (Ok ((RtoC 3 * C0)%C, (RtoC 3 * C1)%C), measurement_heap).
Proof.
  assert (H1 : solvePropagation 2%positive C1 measurement_heap
               = (Ok (C0, C1), measurement_heap)).
  { rewrite (solvePropagation_run measurement_heap 2%positive
               (NdArray complex128 shear) C1 eq_refl C1_neq_C0).
    cbn [entries]. now rewrite measurement_1. }
  split; [exact H1 |].
  exact (proj2 (solvePropagation_linear 2%positive (RtoC 3) C0 C1 _ _ H1)).
Defined.

(** ** The reciprocal solvers, further *)

(** X15.  With invertible bounding matrices,
    [findReciprocalTransferMatrixLegacy] raises [LinAlgError] exactly when
    [|r| = 1]; when it does, whatever the bounding matrices are, the store
    is left as it was. *)
Theorem legacy_rejects_total_reflection
    (D : defaults) (t r : C) (bottomMat topMat : option loc) (h : heap) :
  (Cnorm2 r = 1 ->
   findReciprocalTransferMatrixLegacy D t r bottomMat topMat h
   = (Raise LinAlgError, h)) /\
  (forall B P : ndarray,
     h !! arg_or (legacy_bottomMat D) bottomMat = Some B ->
     h !! arg_or (legacy_topMat D) topMat = Some P ->
     invertible (entries B) -> invertible (entries P) ->
     outcome (findReciprocalTransferMatrixLegacy D t r bottomMat topMat) h
     = Raise LinAlgError ->
     Cnorm2 r = 1).
Proof.
  split.
  - intros Hr. unfold findReciprocalTransferMatrixLegacy. cbv zeta.
    erewrite bind_raise; [reflexivity |]. unfold lift. f_equal.
    apply (legacy_system_singular (RtoC (Re r)) (RtoC (Im r))).
    rewrite legacy_norm, Hr. unfold C0. f_equal. lra.
  - intros B P Hb Hp HB HP Hout.
    destruct (Req_dec_T (Cnorm2 r) 1) as [Hr | Hr]; [exact Hr |].
    unfold outcome in Hout.
    rewrite (findReciprocalTransferMatrixLegacy_run D t r _ _ B P h Hr Hb Hp HB HP)
      in Hout.
    discriminate.
Qed.

Lemma legacy_rejects_total_reflection_witness :
  Cnorm2 Ci = 1 /\
  findReciprocalTransferMatrixLegacy unit_defaults C1 Ci None None unit_heap
  = (Raise LinAlgError, unit_heap).
Proof.
  assert (Hr : Cnorm2 Ci = 1) by (unfold Cnorm2, Ci; simpl; lra).
  split; [exact Hr |].
  exact (proj1 (legacy_rejects_total_reflection unit_defaults C1 Ci None None unit_heap)
           Hr).
Defined.

Lemma RtoC_sub (x y : R) : RtoC (x - y) = (RtoC x - RtoC y)%C.
Proof. C_components. f_equal; ring. Qed.

(** The legacy system inverts [solvePropagation] on every reciprocal
    matrix [[a, b], [conj b, conj a]] whose determinant is not zero. *)
Lemma legacy_round_trip_matrix (a b : C) :
  let E := Mat2 a b (Cconj b) (Cconj a) in
  a <> C0 -> mat2_det E <> C0 ->
  let r := fst (propagation_solution E C1) in
  let t := snd (propagation_solution E C1) in
  Cnorm2 r <> 1 /\ legacy_matrix t r = E.
Proof.
  intros E Ha Hd r t. subst E r t.
  unfold propagation_solution. cbv [m00 m01 m10 m11 mat2_det fst snd] in *.
  pose proof (Cconj_neq_0 a Ha) as Hca.
  pose proof (Cconj_invol a) as Haa. pose proof (Cconj_invol b) as Hbb.
  set (ca := Cconj a) in *. set (cb := Cconj b) in *.
  set (d := (a * ca - b * cb)%C) in *.
  assert (Hcd : Cconj d = d).
  { unfold d. rewrite Cconj_sub, !Cconj_mul. fold ca cb. rewrite Haa, Hbb. ring. }
  assert (Ht : (a * C1 - b * (cb * C1) / ca)%C = (d / ca)%C).
  { unfold d. field. exact Hca. }
  assert (Hr : (- (cb * C1) / ca)%C = (- cb / ca)%C) by (field; exact Hca).
  rewrite Ht, Hr.
  assert (Hcr : Cconj (- cb / ca) = (- b / a)%C).
  { rewrite Cconj_div, Cconj_opp by exact Hca. now rewrite Hbb, Haa. }
  assert (Hct : Cconj (d / ca) = (d / a)%C).
  { rewrite Cconj_div by exact Hca. now rewrite Hcd, Haa. }
  assert (HN : RtoC (1 - Cnorm2 (- cb / ca)) = (d / (a * ca))%C).
  { rewrite RtoC_sub, Cnorm2_conj, Hcr. change (RtoC 1) with C1.
    unfold d. field. split; assumption. }
  split.
  - intros H1. rewrite H1 in HN.
    replace (1 - 1) with 0 in HN by ring. change (RtoC 0) with C0 in HN.
    symmetry in HN. revert HN. apply Cdiv_neq_0; [exact Hd |].
    now apply Cmul_neq_0.
  - unfold legacy_matrix. cbv zeta. rewrite HN, Hcr, Hct.
    clearbody d ca cb. f_equal; field; auto.
Qed.

Lemma legacy_round_trip_reciprocal (E : mat2) :
  reciprocal E -> m00 E <> C0 -> mat2_det E <> C0 ->
  let r := fst (propagation_solution E C1) in
  let t := snd (propagation_solution E C1) in
  Cnorm2 r <> 1 /\ legacy_matrix t r = E.
Proof.
  destruct E as [a b c d]. intros [Hd Hc]. simpl in Hd, Hc. subst c d.
  exact (legacy_round_trip_matrix a b).
Qed.

Lemma reciprocal_m00 (E : mat2) : reciprocal E -> m11 E <> C0 -> m00 E <> C0.
Proof.
  intros [H11 _] Hd Ha. apply Hd. rewrite H11, Ha. C_components. f_equal; ring.
Qed.

Lemma legacy_round_trip_run
    (D : defaults) (tm : loc) (M B P : ndarray) (bottomMat topMat : option loc)
    (h : heap) :
  reciprocal (entries M) ->
  m11 (entries M) <> C0 ->
  mat2_det (entries M) <> C0 ->
  h !! tm = Some M ->
  h !! arg_or (legacy_bottomMat D) bottomMat = Some B -> entries B = mat2_id ->
  h !! arg_or (legacy_topMat D) topMat = Some P -> entries P = mat2_id ->
  exists m : ndarray,
    outcome (round_trip true D tm bottomMat topMat) h = Ok m /\
    entries m = entries M.
Proof.
  intros Hrec Hm11 Hdet Htm Hb HB Hp HP.
  pose proof (reciprocal_m00 _ Hrec Hm11) as Ha.
  destruct (legacy_round_trip_reciprocal _ Hrec Ha Hdet) as [Hr Hmat].
  unfold outcome, round_trip.
  rewrite (bind_run _ _ _ _ _ (solvePropagation_run h tm M C1 Htm Hm11)).
  assert (HBi : invertible (entries B)) by (rewrite HB; apply invertible_id).
  assert (HPi : invertible (entries P)) by (rewrite HP; apply invertible_id).
  rewrite (bind_run _ _ _ _ _
             (findReciprocalTransferMatrixLegacy_run D _ _ _ _ B P h Hr Hb Hp HBi HPi)).
  rewrite (matrix_run _ _ _ (lookup_insert_eq _ _ _)).
  eexists. split; [reflexivity |].
  unfold dot, inv_array. cbn [entries].
  now rewrite HB, HP, mat2_inv_id, mat2_mul_id_l, mat2_mul_id_r.
Qed.

(** X16.  The legacy solver inverts [solvePropagation] on reciprocal
    matrices: for [M] with [M11 = conj(M00)], [M10 = conj(M01)], a
    determinant and an [M11] that are not zero, and identity bounding
    matrices, [solvePropagation] followed by
    [findReciprocalTransferMatrixLegacy] returns the entries of [M]. *)
Theorem legacy_round_trip
    (D : defaults) (tm : loc) (M B P : ndarray) (bottomMat topMat : option loc)
    (h : heap) :
  reciprocal (entries M) ->
  m11 (entries M) <> C0 ->
  mat2_det (entries M) <> C0 ->
  h !! tm = Some M ->
  h !! arg_or (legacy_bottomMat D) bottomMat = Some B -> entries B = mat2_id ->
  h !! arg_or (legacy_topMat D) topMat = Some P -> entries P = mat2_id ->
  exists m : ndarray,
    outcome (round_trip true D tm bottomMat topMat) h = Ok m /\
    entries m = entries M.
Proof. exact (legacy_round_trip_run D tm M B P bottomMat topMat h). Qed.

Lemma legacy_round_trip_witness :
  let M := lossless_asymmetric_sample in
  let h : heap := <[ 2%positive := M ]> unit_heap in
  (reciprocal (entries M) /\ m11 (entries M) <> C0 /\ mat2_det (entries M) <> C0) /\
  exists m : ndarray,
    outcome (round_trip true unit_defaults 2%positive None None) h = Ok m /\
    entries m = entries M.
Proof.
  intros M h.
  assert (Hrec : reciprocal (entries M)).
  { split; cbn [entries array m00 m01 m10 m11 M lossless_asymmetric_sample];
      now rewrite Cconj_RtoC. }
  assert (Hm11 : m11 (entries M) <> C0) by (apply RtoC_neq_0; lra).
  assert (Hdet : mat2_det (entries M) <> C0).
  { replace (mat2_det (entries M)) with C1; [exact C1_neq_C0 |].
    unfold mat2_det; cbn [entries array m00 m01 m10 m11 M lossless_asymmetric_sample].
    C_components. f_equal; lra. }
  split; [split; [exact Hrec | split; assumption] |].
  exact (legacy_round_trip unit_defaults 2%positive M (identity float64)
           (identity float64) None None h Hrec Hm11 Hdet
           eq_refl eq_refl eq_refl eq_refl eq_refl).
Defined.

Lemma legacy_matrix_zero (r : C) : legacy_matrix C0 r = Mat2 C0 C0 C0 C0.
Proof.
  unfold legacy_matrix. cbv zeta.
  replace (Cconj C0) with C0 by (C_components; f_equal; ring).
  unfold Cdiv. f_equal; ring.
Qed.

(** X17.  The legacy solver has no check on the transmittance: with
    transmittance 0, a reflectance with [|r| <> 1] and invertible bounding
    matrices it returns an instance whose matrix is zero. *)
Theorem legacy_accepts_zero_transmittance
    (D : defaults) (r : C) (bottomMat topMat : option loc) (B P : ndarray) (h : heap) :
  Cnorm2 r <> 1 ->
  h !! arg_or (legacy_bottomMat D) bottomMat = Some B ->
  h !! arg_or (legacy_topMat D) topMat = Some P ->
  invertible (entries B) -> invertible (entries P) ->
  exists (l : loc) (m : ndarray),
    findReciprocalTransferMatrixLegacy D C0 r bottomMat topMat h
    = (Ok l, <[l := m]> h) /\
    h !! l = None /\
    entries m = Mat2 C0 C0 C0 C0.
Proof.
  intros Hr Hb Hp HB HP. eexists _, _.
  split; [apply (findReciprocalTransferMatrixLegacy_run D C0 r _ _ B P h); assumption |].
  split; [apply fresh_unbound |].
  unfold dot, inv_array. cbn [entries]. rewrite legacy_matrix_zero.
  unfold mat2_mul; cbn [m00 m01 m10 m11]. f_equal; ring.
Qed.

Lemma legacy_accepts_zero_transmittance_witness :
  Cnorm2 C0 <> 1 /\
  exists (l : loc) (m : ndarray),
    findReciprocalTransferMatrixLegacy unit_defaults C0 C0 None None unit_heap
    = (Ok l, <[l := m]> unit_heap) /\
    unit_heap !! l = None /\
    entries m = Mat2 C0 C0 C0 C0.
Proof.
  assert (Hr : Cnorm2 C0 <> 1) by (unfold Cnorm2, C0, RtoC; simpl; lra).
  split; [exact Hr |].
  exact (legacy_accepts_zero_transmittance unit_defaults C0 None None
           (identity float64) (identity float64) unit_heap Hr
           eq_refl eq_refl invertible_id invertible_id).
Defined.

(** ** A layer of real index: a lossless symmetric structure *)

Lemma direct_round_trip_run
    (D : defaults) (tm : loc) (M B P : ndarray) (bottomMat topMat : option loc)
    (h : heap) :
  reciprocal (entries M) ->
  mat2_det (entries M) = C1 ->
  Re (m01 (entries M)) = 0 ->
  h !! tm = Some M ->
  h !! arg_or (reciprocal_bottomMat D) bottomMat = Some B -> entries B = mat2_id ->
  h !! arg_or (reciprocal_topMat D) topMat = Some P -> entries P = mat2_id ->
  exists m : ndarray,
    outcome (round_trip false D tm bottomMat topMat) h = Ok m /\
    entries m = entries M.
Proof.
  intros Hrec Hdet Him Htm Hb HB Hp HP.
  pose proof (reciprocal_unimodular_m00 _ Hrec Hdet) as Ha.
  assert (Hm11 : m11 (entries M) <> C0).
  { destruct Hrec as [-> _]. now apply Cconj_neq_0. }
  assert (Hd : mat2_det (entries M) <> C0) by (rewrite Hdet; exact C1_neq_C0).
  destruct (round_trip_reciprocal _ Hrec Ha Hd) as [Ht Hmat].
  unfold outcome, round_trip.
  rewrite (bind_run _ _ _ _ _ (solvePropagation_run h tm M C1 Htm Hm11)).
  destruct (findReciprocalTransferMatrix_run_identity D
              (snd (propagation_solution (entries M) C1))
              (fst (propagation_solution (entries M) C1))
              bottomMat topMat B P h Ht Hb HB Hp HP) as (m & Hrun & Hm).
  rewrite (bind_run _ _ _ _ _ Hrun).
  rewrite (matrix_run _ _ _ (lookup_insert_eq _ _ _)).
  exists m. split; [reflexivity |].
  rewrite Hm. cbn [fst snd propagation_solution]. rewrite Hmat, Hdet.
  destruct Hrec as [_ Hc].
  assert (Hneg : (- m01 (entries M))%C = m10 (entries M)).
  { rewrite Hc. symmetry. now apply imaginary_conj. }
  assert (Hneg' : (- m10 (entries M))%C = m01 (entries M)).
  { rewrite <- Hneg. ring. }
  rewrite Hneg, Hneg'. destruct (entries M); unfold mat2_scale; simpl.
  f_equal; field; exact C1_neq_C0.
Qed.

(** The pair [solvePropagation] yields on a reciprocal matrix of
    determinant 1 conserves energy. *)
Lemma lossless_energy (a b : C) :
  let E := Mat2 a b (Cconj b) (Cconj a) in
  a <> C0 -> mat2_det E = C1 ->
  Cnorm2 (fst (propagation_solution E C1))
  + Cnorm2 (snd (propagation_solution E C1)) = 1.
Proof.
  intros E Ha Hd. subst E. apply RtoC_inj. rewrite RtoC_add, !Cnorm2_conj.
  unfold propagation_solution. cbv [m00 m01 m10 m11 mat2_det fst snd] in *.
  pose proof (Cconj_neq_0 a Ha) as Hca.
  pose proof (Cconj_invol a) as Haa. pose proof (Cconj_invol b) as Hbb.
  set (ca := Cconj a) in *. set (cb := Cconj b) in *.
  assert (Ht : (a * C1 - b * (cb * C1) / ca)%C = ((a * ca - b * cb) / ca)%C).
  { field. exact Hca. }
  rewrite Hd in Ht.
  assert (Hr : (- (cb * C1) / ca)%C = (- cb / ca)%C) by (field; exact Hca).
  rewrite Ht, Hr.
  rewrite !Cconj_div, Cconj_opp by exact Hca. rewrite Hbb, Haa.
  replace (Cconj C1) with C1 by (C_components; f_equal; ring).
  change (RtoC 1) with C1.
  assert (Hk : (b * cb)%C = (a * ca - C1)%C) by (rewrite <- Hd; ring).
  clearbody ca cb.
  transitivity ((b * cb + C1) / (a * ca))%C; [field; split; assumption |].
  rewrite Hk. field. split; assumption.
Qed.

Lemma lossless_energy_reciprocal (E : mat2) :
  reciprocal E -> mat2_det E = C1 ->
  Cnorm2 (fst (propagation_solution E C1))
  + Cnorm2 (snd (propagation_solution E C1)) = 1.
Proof.
  intros Hrec Hdet. pose proof (reciprocal_unimodular_m00 _ Hrec Hdet) as Ha.
  destruct E as [a b c d]. destruct Hrec as [Hd Hc]. simpl in Hd, Hc, Ha. subst c d.
  exact (lossless_energy a b Ha Hdet).
Qed.

Section RealIndex.

Variables (x d wavelength : R).
Hypothesis Hx : x <> 0.
Hypothesis Hw : wavelength <> 0.

Let phi : R := x * d * 2 * PI / wavelength.

Lemma real_index_phase_down :
  Cexp (- Ci * RtoC x * RtoC d * 2 * RtoC PI / RtoC wavelength) = (cos phi, - sin phi).
Proof.
  replace (- Ci * RtoC x * RtoC d * 2 * RtoC PI / RtoC wavelength)%C
    with ((0, - phi) : C).
  - unfold Cexp; cbn [Re Im fst snd]. rewrite exp_0, cos_neg, sin_neg. f_equal; ring.
  - unfold phi. cbv [Cdiv Cinv Cmul Copp Cnorm2 Ci RtoC Re Im fst snd].
    f_equal; field; exact Hw.
Qed.

Lemma real_index_phase_up :
  Cexp (Ci * RtoC x * RtoC d * 2 * RtoC PI / RtoC wavelength) = (cos phi, sin phi).
Proof.
  replace (Ci * RtoC x * RtoC d * 2 * RtoC PI / RtoC wavelength)%C
    with ((0, phi) : C).
  - unfold Cexp; cbn [Re Im fst snd]. rewrite exp_0. f_equal; ring.
  - unfold phi. cbv [Cdiv Cinv Cmul Copp Cnorm2 Ci RtoC Re Im fst snd].
    f_equal; field; exact Hw.
Qed.

Lemma real_layer_reciprocal :
  reciprocal (entries (layer_array (RtoC x) d wavelength)) /\
  Re (m01 (entries (layer_array (RtoC x) d wavelength))) = 0.
Proof.
  rewrite layer_array_entries.
  unfold TransferMatrix.topBoundary, TransferMatrix.bottomBoundary,
    TransferMatrix.propagation, array. cbn [entries].
  rewrite real_index_phase_down, real_index_phase_up.
  generalize (cos phi) (sin phi). intros c s.
  unfold reciprocal, mat2_mul. cbn [m00 m01 m10 m11].
  cbv [Cdiv Cinv Csub Cmul Cadd Copp Cconj Cnorm2 C0 C1 RtoC Re Im fst snd].
  repeat split; try (f_equal; field; exact Hx); field; exact Hx.
Qed.

Lemma real_layer_det :
  mat2_det (entries (layer_array (RtoC x) d wavelength)) = C1.
Proof.
  apply layer_array_det; [| exact Hw]. apply double_neq_0_intro, RtoC_neq_0, Hx.
Qed.

End RealIndex.

Lemma real_layer_m11 (x d wavelength : R) :
  x <> 0 -> wavelength <> 0 ->
  m11 (entries (layer_array (RtoC x) d wavelength)) <> C0.
Proof.
  intros Hx Hw. destruct (real_layer_reciprocal x d wavelength Hx Hw) as [Hrec _].
  pose proof (real_layer_det x d wavelength Hx Hw) as Hdet.
  pose proof (reciprocal_unimodular_m00 _ Hrec Hdet) as Ha.
  destruct Hrec as [-> _]. now apply Cconj_neq_0.
Qed.



Lemma defaults_identity_lookups (D : defaults) (h : heap) :
  defaults_identity D h ->
  h !! reciprocal_bottomMat D = Some (identity float64) /\
  h !! reciprocal_topMat D = Some (identity float64) /\
  h !! legacy_bottomMat D = Some (identity float64) /\
  h !! legacy_topMat D = Some (identity float64).
Proof.
  unfold defaults_identity, default_locs. intros H.
  apply Forall_cons in H as [H1 H]. apply Forall_cons in H as [H2 H].
  apply Forall_cons in H as [H3 H]. apply Forall_cons in H as [H4 H].
  auto.
Qed.

Lemma outcome_run {A} (c : Py A) (h : heap) (a : A) :
  outcome c h = Ok a -> exists h', c h = (Ok a, h').
Proof.
  unfold outcome. destruct (c h) as [res h']. simpl. intros ->. now exists h'.
Qed.





(** ** The constructors and the forward solver never write *)

Lemma allocates_only_boundingLayer (n1 n2 : C) :
  allocates_only (TransferMatrix.boundingLayer n1 n2).
Proof. unfold TransferMatrix.boundingLayer; repeat allocates_only_step. Qed.

Lemma allocates_only_propagationLayer (n : C) (d wavelength : R) :
  allocates_only (TransferMatrix.propagationLayer n d wavelength).
Proof. unfold TransferMatrix.propagationLayer; repeat allocates_only_step. Qed.

Lemma solvePropagation_final (tm : loc) (f : C) (h : heap) :
  final (solvePropagation tm f) h = h.
Proof.
  unfold final, solvePropagation, bind, TransferMatrix.matrix, lift, ret.
  destruct (h !! tm) as [T |]; [| reflexivity]. cbv zeta.
  now destruct (linalg_solve _ _).
Qed.

(** X23.  [layer], [boundingLayer] and [propagationLayer] leave every
    instance that existed before the call with the matrix it had, whether
    they return or raise, and [solvePropagation] leaves the whole store as
    it was. *)
Theorem constructors_keep_instances :
  (forall n d wavelength (h : heap) (l : loc) (m : ndarray),
     h !! l = Some m ->
     final (TransferMatrix.layer n d wavelength) h !! l = Some m) /\
  (forall n1 n2 (h : heap) (l : loc) (m : ndarray),
     h !! l = Some m ->
     final (TransferMatrix.boundingLayer n1 n2) h !! l = Some m) /\
  (forall n d wavelength (h : heap) (l : loc) (m : ndarray),
     h !! l = Some m ->
     final (TransferMatrix.propagationLayer n d wavelength) h !! l = Some m) /\
  (forall tm f (h : heap), final (solvePropagation tm f) h = h).
Proof.
  split; [| split; [| split]].
  - intros. now apply allocates_only_lookup; [apply allocates_only_layer |].
  - intros. now apply allocates_only_lookup; [apply allocates_only_boundingLayer |].
  - intros. now apply allocates_only_lookup; [apply allocates_only_propagationLayer |].
  - apply solvePropagation_final.
Qed.

Lemma constructors_keep_instances_witness :
  measurement_heap !! 2%positive = Some (NdArray complex128 shear) /\
  final (TransferMatrix.layer (RtoC 2) 1 5) measurement_heap !! 2%positive
  = Some (NdArray complex128 shear).
Proof.
  split; [reflexivity |].
  exact (proj1 constructors_keep_instances (RtoC 2) 1 5 measurement_heap 2%positive
           (NdArray complex128 shear) eq_refl).
Defined.
